(** * Pinboard Band: shape-to-sequence mapping engine

    A shallow embedding of the TypeScript sources

    - [types/grid.ts]                 ([GridNode], [GridEdge]),
    - [core/musicMapping.ts]          ([buildAdjacency], [longestTrail],
                                       [pingPongToLength], [computeDegreeMap]),
    - [core/sequenceGenerators.ts]    (the Rhythm, Chord and Phrase generators,
                                       [parseNodeId], [getNoteFromNode]),
    - [components/HexagonalTriangleGrid.tsx] ([createGrid], [getEdgeSegments],
                                       the three edit handlers),
    - [core/midiScheduler.ts]         (whether [attachToTransport] builds a
                                       pattern),

    together with the properties the specification states about them.

    Conventions of the embedding.
    - A JS [number] that holds a coordinate or a length is an IEEE-754
      binary64 value: Rocq's primitive [float].  [+], [-], [*], [/],
      [Math.sqrt], [Math.abs] and the comparisons are the primitive
      operations.  Counters, degrees and grid indices, which are integers
      in every run, are [nat] or [Z].
    - A JS [string] is a [string]; [undefined] read from an array is [None].
    - A JS [Map] or [Set] iterates in insertion order, so it is a list
      (association list, duplicate-free list) kept in that order. *)

From Stdlib Require Import String Ascii ZArith Lia Bool Arith.
From Stdlib Require DecimalNat DecimalFacts.
From Stdlib Require Import DecimalString Permutation Sorted Floats List.
Import ListNotations.

Set Warnings "-inexact-float".

Open Scope string_scope.
Open Scope list_scope.
Open Scope nat_scope.

(* ================================================================== *)
(** * JavaScript containers *)
(* ================================================================== *)

Module JS.

(** [Set<string>]: insertion-ordered, no duplicates. *)
Definition JSet := list string.

Definition set_has (s : JSet) (k : string) : bool :=
  existsb (String.eqb k) s.

Definition set_add (s : JSet) (k : string) : JSet :=
  if set_has s k then s else s ++ [k].

(** [Map<string, V>]: insertion-ordered association list. *)
Definition JMap (V : Type) := list (string * V).

Fixpoint map_get {V} (m : JMap V) (k : string) : option V :=
  match m with
  | [] => None
  | (k', v) :: m' => if String.eqb k k' then Some v else map_get m' k
  end.

Definition map_has {V} (m : JMap V) (k : string) : bool :=
  match map_get m k with Some _ => true | None => false end.

(** [m.set(k, v)]: an existing key keeps its place, a new key goes last. *)
Fixpoint map_set {V} (m : JMap V) (k : string) (v : V) : JMap V :=
  match m with
  | [] => [(k, v)]
  | (k', v') :: m' =>
      if String.eqb k k' then (k', v) :: m' else (k', v') :: map_set m' k v
  end.

Definition map_keys {V} (m : JMap V) : list string := map fst m.

(** [a[i]] for an integer index: [undefined] outside the array. *)
Definition index {A} (a : list A) (i : Z) : option A :=
  if (i <? 0)%Z then None else nth_error a (Z.to_nat i).

(** An integer held in a double (exact below 2^53). *)
Definition float_of_Z (z : Z) : float :=
  if (z <? 0)%Z then (- PrimFloat.of_uint63 (Uint63.of_Z (- z)))%float
  else PrimFloat.of_uint63 (Uint63.of_Z z).

Definition float_of_nat (n : nat) : float := float_of_Z (Z.of_nat n).

(** [Math.min] on two arguments. *)
Definition Math_min (a b : float) : float :=
  if is_nan a then a
  else if is_nan b then b
  else if (a <? b)%float then a
  else if (b <? a)%float then b
  else if get_sign a then a else b.

(** The library functions on numbers that are not IEEE-754 primitives.
    The development is parametric in them: no property below depends on
    how they round.
    - [Math_hypot] is [Math.hypot] on two arguments (the language leaves
      its precision to the implementation);
    - [Math_round] is [Math.round] on a finite argument, where its value is
      an integer (every argument below is a quotient or product of finite
      lengths);
    - [toFixed6 v] is [v.toFixed(6)];
    - [toString v] is the conversion a template literal applies to [v].
    The one law is the language's: [Math.hypot] of zeros is [+0]. *)
Class MathLib := {
  Math_hypot : float -> float -> float;
  Math_round : float -> Z;
  toFixed6 : float -> string;
  toString : float -> string;
  Math_hypot_zero : Math_hypot 0 0 = 0%float
}.

End JS.
Import JS.

(* ================================================================== *)
(** * types/grid.ts *)
(* ================================================================== *)

Record GridNode := mkNode {
  id : string;
  x : float;
  y : float;
  row : Z;
  col : Z
}.

Record GridEdge := mkEdge {
  key : string;
  from : GridNode;
  to : GridNode
}.

(* ================================================================== *)
(** * core/musicMapping.ts *)
(* ================================================================== *)

Module MusicMapping.

(** The body of the [for (const e of edges)] loop of [buildAdjacency].
    [adj.get(k)!.add(v)] mutates the set stored under [k], which is an
    in-place update of the entry. *)
Definition adj_add (adj : JMap JSet) (k v : string) : JMap JSet :=
  match map_get adj k with
  | Some s => map_set adj k (set_add s v)
  | None => adj
  end.

Definition buildAdjacency_step (adj : JMap JSet) (e : GridEdge) : JMap JSet :=
  let adj := if map_has adj (id (from e)) then adj
             else map_set adj (id (from e)) [] in
  let adj := if map_has adj (id (to e)) then adj
             else map_set adj (id (to e)) [] in
  let adj := adj_add adj (id (from e)) (id (to e)) in
  adj_add adj (id (to e)) (id (from e)).

Definition buildAdjacency (edges : list GridEdge) : JMap JSet :=
  fold_left buildAdjacency_step edges [].

(** [adj.get(node) ?? []] *)
Definition neighbours (adj : JMap JSet) (node : string) : JSet :=
  match map_get adj node with Some s => s | None => [] end.

(** The inner function [dfs] of [longestTrail].  [visited] and [path] are
    copied at every call ([new Set(visited)], [[...path]]), so they are
    passed by value; the captured variable [longest] is the only state and
    is threaded through.  The recursion is bounded by [fuel]; [None] means
    the bound was hit. *)
Fixpoint dfs (fuel : nat) (adj : JMap JSet) (node : string)
    (visited : JSet) (path longest : list string) : option (list string) :=
  match fuel with
  | O => None
  | S fuel' =>
      let visited := set_add visited node in
      let path := path ++ [node] in
      let longest :=
        if length longest <? length path then path else longest in
      fold_left
        (fun acc next =>
           match acc with
           | None => None
           | Some longest =>
               if set_has visited next then Some longest
               else dfs fuel' adj next visited path longest
           end)
        (neighbours adj node) (Some longest)
  end.

Definition longestTrail_fuel (fuel : nat) (adj : JMap JSet)
  : option (list string) :=
  fold_left
    (fun acc start =>
       match acc with
       | None => None
       | Some longest => dfs fuel adj start [] [] longest
       end)
    (map_keys adj) (Some []).

(** Every node id the map mentions, as a key or as a neighbour. *)
Definition graph_nodes (adj : JMap JSet) : list string :=
  map_keys adj ++ flat_map snd adj.

(** [longestTrail]: the search runs with one unit of fuel per node id the
    map mentions, plus one; [longestTrail_fuel_enough] below shows that
    this bound is never hit. *)
Definition longestTrail (adj : JMap JSet) : list string :=
  match longestTrail_fuel (S (length (graph_nodes adj))) adj with
  | Some longest => longest
  | None => []
  end.

(** The [while (result.length < targetLength)] loop of [pingPongToLength];
    each turn pushes one element, so [n] counts the turns left. *)
Fixpoint pingPong_loop (path : list string) (n : nat) (forward : bool)
    (i : Z) : list (option string) :=
  match n with
  | O => []
  | S n' =>
      let pushed := index path i in
      let i := if forward then (i + 1)%Z else (i - 1)%Z in
      let forward :=
        if (i =? Z.of_nat (length path) - 1)%Z then false
        else if (i =? 0)%Z then true
        else forward in
      pushed :: pingPong_loop path n' forward i
  end.

Definition pingPongToLength (path : list string) (targetLength : nat)
  : list (option string) :=
  if length path =? 0 then [] else pingPong_loop path targetLength true 0%Z.

(** [degree.get(k) ?? 0] *)
Definition degree_of (degree : JMap nat) (k : string) : nat :=
  match map_get degree k with Some d => d | None => 0 end.

Definition computeDegreeMap_step (degree : JMap nat) (e : GridEdge)
  : JMap nat :=
  let degree :=
    map_set degree (id (from e)) (degree_of degree (id (from e)) + 1) in
  map_set degree (id (to e)) (degree_of degree (id (to e)) + 1).

Definition computeDegreeMap (edges : list GridEdge) : JMap nat :=
  fold_left computeDegreeMap_step edges [].

End MusicMapping.
Import MusicMapping.

(* ================================================================== *)
(** * core/sequenceGenerators.ts *)
(* ================================================================== *)

Module SequenceGenerators.

(** What a generator returns: [{ sequence, nodeOrder }]. *)
Record Generated (E O : Type) := mkGenerated {
  sequence : list E;
  nodeOrder : list O
}.
Arguments mkGenerated {E O} _ _.
Arguments sequence {E O} _.
Arguments nodeOrder {E O} _.

(** A callback either returns or throws a [TypeError]
    (reading a property of [undefined]). *)
Inductive result (A : Type) : Type :=
| Ok (a : A)
| TypeError.
Arguments Ok {A} _.
Arguments TypeError {A}.

Definition bind {A B} (r : result A) (k : A -> result B) : result B :=
  match r with Ok a => k a | TypeError => TypeError end.

(** [xs.map(f)] for a callback that may throw: the first throw aborts. *)
Fixpoint map_result {A B} (f : A -> result B) (xs : list A)
  : result (list B) :=
  match xs with
  | [] => Ok []
  | a :: xs' =>
      bind (f a) (fun b => bind (map_result f xs') (fun bs => Ok (b :: bs)))
  end.

(** [degreeMap.get(id) ?? 0], where [id] may be [undefined]: the keys of
    the map are strings, so [undefined] is never found. *)
Definition degree_at (degreeMap : JMap nat) (id : option string) : nat :=
  match id with
  | Some k => degree_of degreeMap k
  | None => 0
  end.

(** The [nodeOrder.map] callback of [generateRhythmSequence]. *)
Definition rhythm_event (degreeMap : JMap nat) (id : option string)
  : option string :=
  let d := degree_at degreeMap id in
  if d <=? 2 then None
  else if d =? 3 then Some "kick"
  else if d =? 4 then Some "snare"
  else if d =? 5 then Some "clap"
  else if 6 <=? d then Some "hihat"
  else None.

Definition generateRhythmSequence (edges : list GridEdge)
  : Generated (option string) (option string) :=
  let adj := buildAdjacency edges in
  let path := longestTrail adj in
  let nodeOrder := pingPongToLength path 64 in
  let degreeMap := computeDegreeMap edges in
  let sequence := map (rhythm_event degreeMap) nodeOrder in
  mkGenerated sequence nodeOrder.

(** ** [parseNodeId]: the regular expression [/r(\d+)c(\d+)/] *)

Definition is_digit (c : ascii) : bool :=
  let n := nat_of_ascii c in (48 <=? n) && (n <=? 57).

(** The longest run of digits at the head of [s], and what follows it:
    a greedy [\d*]. *)
Fixpoint take_digits (s : string) : string * string :=
  match s with
  | String c s' =>
      if is_digit c then
        let (ds, rest) := take_digits s' in (String c ds, rest)
      else (EmptyString, s)
  | EmptyString => (EmptyString, EmptyString)
  end.

(** The pattern tried at the head of [s]: the two captured groups.  After a
    greedy [\d+] the next character is not a digit, so giving digits back
    can never make the following [c] (or the end of the pattern) match:
    the greedy run is the only candidate. *)
Definition match_here (s : string) : option (string * string) :=
  match s with
  | String c1 s1 =>
      if Ascii.eqb c1 "r" then
        match take_digits s1 with
        | (String d ds, String c2 s2) =>
            if Ascii.eqb c2 "c" then
              match take_digits s2 with
              | (String e es, _) => Some (String d ds, String e es)
              | (EmptyString, _) => None
              end
            else None
        | _ => None
        end
      else None
  | EmptyString => None
  end.

(** [id.match(re)] without the [g] flag: the leftmost match. *)
Fixpoint regex_match (s : string) : option (string * string) :=
  match match_here s with
  | Some groups => Some groups
  | None =>
      match s with
      | String _ s' => regex_match s'
      | EmptyString => None
      end
  end.

(** [parseInt] on a run of decimal digits: the integer they write.  (JS
    returns the double nearest to that integer, which is the integer
    itself up to 2^53.) *)
Fixpoint parseInt_from (acc : nat) (s : string) : nat :=
  match s with
  | String c s' =>
      if is_digit c then parseInt_from (10 * acc + (nat_of_ascii c - 48)) s'
      else acc
  | EmptyString => acc
  end.

Definition parseInt (s : string) : nat := parseInt_from 0 s.

Definition parseNodeId (id : string) : Z * Z :=
  match regex_match id with
  | None => (0%Z, 0%Z)
  | Some (m1, m2) => (Z.of_nat (parseInt m1), Z.of_nat (parseInt m2))
  end.

(** [String(n)] for a natural number up to 2^53: its decimal digits.  (Up
    to 2^53 every integer is a double of its own and prints in full.
    Above, JS prints the shortest digits that read back as the double, and
    from 1e21 on it prints them in exponent notation: [number_string]
    below.) *)
Definition string_of_nat (n : nat) : string :=
  NilEmpty.string_of_uint (Nat.to_uint n).

(** The id [createGrid] gives the node at [(row, col)]:
    [`r${rowIndex}c${colIndex}`]. *)
Definition node_id (row col : nat) : string :=
  ("r" ++ string_of_nat row ++ "c" ++ string_of_nat col)%string.

Fixpoint all_zeros (s : string) : bool :=
  match s with
  | EmptyString => true
  | String c s' => Ascii.eqb c "0" && all_zeros s'
  end.

(** [String(n)] on binary numbers, past the range of [string_of_nat] too:
    a number [d * 10^k] with one digit [d] and more than 21 digits in all
    ([n >= 1e21], standing for the double nearest to it) prints as the
    digit followed by [e+k].  The other numbers above 2^53 are not
    modelled. *)
Definition number_string (n : N) : option string :=
  let digits := NilEmpty.string_of_uint (N.to_uint n) in
  if (n <=? 2 ^ 53)%N then Some digits
  else if (n <? 10 ^ 21)%N then None
  else
    match digits with
    | String d zeros =>
        if all_zeros zeros
        then Some (String d ("e+" ++ string_of_nat (String.length zeros)))
        else None
    | EmptyString => None
    end.

(** [`r${row}c${col}`] for two such numbers. *)
Definition template_id (row col : N) : option string :=
  match number_string row, number_string col with
  | Some r, Some c => Some ("r" ++ r ++ "c" ++ c)%string
  | _, _ => None
  end.

Record PhraseNote := mkNote {
  note : Z;
  velocity : float
}.

Record ChordEvent := mkChord {
  notes : list Z
}.

Section WithNoteMap.

(** [noteMap.layout], the table of [assets/pin_note_map.json]: the asset is
    not part of the sources, so the table is a parameter. *)
Variable layout : list (list Z).

Definition getNoteFromNode (row col : Z) : option Z :=
  if ((row <? 0) || (row >=? Z.of_nat (length layout)))%Z then None
  else
    match index layout row with
    | None => None
    | Some rowData =>
        if ((col <? 0) || (col >=? Z.of_nat (length rowData)))%Z then None
        else index rowData col
    end.

(** The [nodeOrder.map] callback of [generatePhraseSequence].  [parseNodeId]
    calls [id.match], which throws when [id] is [undefined]. *)
Definition phrase_event (degreeMap : JMap nat) (id : option string)
  : result (option PhraseNote) :=
  let d := degree_at degreeMap id in
  if d <=? 2 then Ok None
  else
    match id with
    | None => TypeError
    | Some k =>
        let (row, col) := parseNodeId k in
        match getNoteFromNode row col with
        | Some n =>
            Ok (Some (mkNote n (Math_min 1 (float_of_nat d / 6))))
        | None => Ok None
        end
    end.

Definition generatePhraseSequence (edges : list GridEdge)
  : result (Generated (option PhraseNote) (option string)) :=
  let adj := buildAdjacency edges in
  let path := longestTrail adj in
  let nodeOrder := pingPongToLength path 64 in
  let degreeMap := computeDegreeMap edges in
  bind (map_result (phrase_event degreeMap) nodeOrder)
       (fun sequence => Ok (mkGenerated sequence nodeOrder)).

(** ** The Chord generator *)

Context {M : MathLib}.

(** [Math.hypot(e.to.x - e.from.x, e.to.y - e.from.y)] *)
Definition edge_length (e : GridEdge) : float :=
  Math_hypot (x (to e) - x (from e)) (y (to e) - y (from e)).

(** The dot product of the unit directions of two edges, as the [find]
    callback computes it. *)
Definition direction_dot (edge first : GridEdge) : float :=
  let dx := (x (to edge) - x (from edge))%float in
  let dy := (y (to edge) - y (from edge))%float in
  let len := Math_hypot dx dy in
  let nx := (dx / len)%float in
  let ny := (dy / len)%float in
  let dx2 := (x (to first) - x (from first))%float in
  let dy2 := (y (to first) - y (from first))%float in
  let len2 := Math_hypot dx2 dy2 in
  let nx2 := (dx2 / len2)%float in
  let ny2 := (dy2 / len2)%float in
  (nx * nx2 + ny * ny2)%float.

(** The callback of [lines.find]. *)
Definition same_line (edge : GridEdge) (group : list GridEdge) : bool :=
  match group with
  | [] => false
  | first :: _ => (0.999 <? abs (direction_dot edge first))%float
  end.

(** The body of [edges.forEach]: [find] returns the first group that
    passes, and [push] appends to that group in place; with no such group
    a new one is pushed. *)
Fixpoint add_to_lines (lines : list (list GridEdge)) (edge : GridEdge)
  : list (list GridEdge) :=
  match lines with
  | [] => [[edge]]
  | group :: rest =>
      if same_line edge group then (group ++ [edge]) :: rest
      else group :: add_to_lines rest edge
  end.

Definition group_lines (edges : list GridEdge) : list (list GridEdge) :=
  fold_left add_to_lines edges [].

Record LineInfo := mkLine {
  group : list GridEdge;
  totalLength : float
}.

Definition line_info (g : list GridEdge) : LineInfo :=
  mkLine g (fold_left (fun acc e => (acc + edge_length e)%float) g 0%float).

(** The comparator [(a, b) => b.totalLength - a.totalLength]. *)
Definition by_length_desc (a b : LineInfo) : float :=
  (totalLength b - totalLength a)%float.

(** [Array.prototype.sort] is a stable sort: an element moves behind
    another only when the comparator is positive on them (a [NaN] counts
    as zero).  Stable insertion sort computes that order. *)
Fixpoint sort_insert {A} (cmp : A -> A -> float) (a : A) (l : list A)
  : list A :=
  match l with
  | [] => [a]
  | b :: l' =>
      if (0 <? cmp a b)%float then b :: sort_insert cmp a l'
      else a :: b :: l'
  end.

Fixpoint sort {A} (cmp : A -> A -> float) (l : list A) : list A :=
  match l with
  | [] => []
  | a :: l' => sort_insert cmp a (sort cmp l')
  end.

(** [Set<number>.add] *)
Definition pins_add (pins : list Z) (n : Z) : list Z :=
  if existsb (Z.eqb n) pins then pins else pins ++ [n].

(** [Array.from(pins)] for one line: the notes of the two ends of every
    edge, in order, without repeats. *)
Definition chord_of (line : LineInfo) : list Z :=
  fold_left
    (fun pins e =>
       fold_left
         (fun pins n =>
            match getNoteFromNode (row n) (col n) with
            | Some note => pins_add pins note
            | None => pins
            end)
         [from e; to e] pins)
    (group line) [].

(** [String(n)] for an integer. *)
Definition string_of_Z (n : Z) : string :=
  if (n <? 0)%Z then ("-" ++ string_of_nat (Z.to_nat (- n)))%string
  else string_of_nat (Z.to_nat n).

Definition top4 (edges : list GridEdge) : list LineInfo :=
  firstn 4 (sort by_length_desc (map line_info (group_lines edges))).

(** [chords[i % chords.length]]; the index is in range whenever [chords]
    is not empty. *)
Definition fullProgression (chords : list (list Z)) : list (list Z) :=
  map (fun i => nth (i mod length chords) chords []) [0; 1; 2; 3].

Definition generateChordSequence (edges : list GridEdge)
  : Generated ChordEvent string :=
  if length edges =? 0 then mkGenerated [] []
  else
    let chords := map chord_of (top4 edges) in
    let progression := fullProgression chords in
    let nodeOrder := map string_of_Z (concat progression) in
    let sequence := map mkChord progression in
    mkGenerated sequence nodeOrder.

End WithNoteMap.

End SequenceGenerators.
Import SequenceGenerators.

(* ================================================================== *)
(** * components/HexagonalTriangleGrid.tsx *)
(* ================================================================== *)

Module Grid.

Definition ROW_COUNTS : list nat := [4; 5; 6; 7; 6; 5; 4].
Definition SIDE_LENGTH : float := 48.
Definition HORIZONTAL_SPACING : float := SIDE_LENGTH.
Definition VERTICAL_SPACING : float := (SIDE_LENGTH * sqrt 3 * 0.5)%float.
Definition MAX_COUNT : nat := fold_right Nat.max 0 ROW_COUNTS.
Definition MARGIN : float := SIDE_LENGTH.

(** [a.id < b.id ? `${a.id}-${b.id}` : `${b.id}-${a.id}`] *)
Definition createEdgeKey (a b : GridNode) : string :=
  (if String.ltb (id a) (id b) then id a ++ "-" ++ id b
   else id b ++ "-" ++ id a)%string.

(** ** [createGrid] *)

(** The local state of [createGrid]: the edges pushed so far and
    [edgeKeys]. *)
Definition GridAcc : Type := list GridEdge * JSet.

Definition addEdge (acc : GridAcc) (a b : GridNode) : GridAcc :=
  let (edges, edgeKeys) := acc in
  let key := createEdgeKey a b in
  if set_has edgeKeys key then acc
  else (edges ++ [mkEdge key a b], set_add edgeKeys key).

(** [addEdge(u[i], v[j])] for two array reads; every read in [createGrid]
    is in range, an out-of-range one leaves the state as it is. *)
Definition addEdge_at (acc : GridAcc) (u : list GridNode) (i : nat)
    (v : list GridNode) (j : nat) : GridAcc :=
  match nth_error u i, nth_error v j with
  | Some a, Some b => addEdge acc a b
  | _, _ => acc
  end.

(** [Array.from({ length: count }, (_, colIndex) => ...)] *)
Definition make_row (rowIndex count : nat) : list GridNode :=
  let offset :=
    (float_of_nat (MAX_COUNT - count) * HORIZONTAL_SPACING / 2)%float in
  map (fun colIndex =>
         mkNode (node_id rowIndex colIndex)
                (MARGIN + offset + float_of_nat colIndex * HORIZONTAL_SPACING)
                (MARGIN + float_of_nat rowIndex * VERTICAL_SPACING)
                (Z.of_nat rowIndex) (Z.of_nat colIndex))
      (seq 0 count).

Definition nodesByRow : list (list GridNode) :=
  map (fun rc => make_row (fst rc) (snd rc))
      (combine (seq 0 (length ROW_COUNTS)) ROW_COUNTS).

(** [rowNodes.forEach((node, idx) => { const next = rowNodes[idx + 1];
    if (next) addEdge(node, next); })] *)
Definition connect_row (acc : GridAcc) (rowNodes : list GridNode) : GridAcc :=
  fold_left (fun acc idx => addEdge_at acc rowNodes idx rowNodes (idx + 1))
            (seq 0 (length rowNodes)) acc.

(** The body of the loop over consecutive rows. *)
Definition connect_rows (acc : GridAcc) (upperRow lowerRow : list GridNode)
  : GridAcc :=
  if length lowerRow =? length upperRow + 1 then
    fold_left
      (fun acc col =>
         let acc := addEdge_at acc upperRow col lowerRow col in
         addEdge_at acc upperRow col lowerRow (col + 1))
      (seq 0 (length upperRow)) acc
  else if length lowerRow + 1 =? length upperRow then
    fold_left
      (fun acc col =>
         let acc := addEdge_at acc upperRow col lowerRow col in
         addEdge_at acc upperRow (col + 1) lowerRow col)
      (seq 0 (length lowerRow)) acc
  else
    fold_left
      (fun acc col =>
         let acc := addEdge_at acc upperRow col lowerRow col in
         if col <? length upperRow - 1
         then addEdge_at acc upperRow (col + 1) lowerRow col
         else acc)
      (seq 0 (length upperRow)) acc.

(** The rows are built first and joined afterwards here; in the source the
    horizontal edges of a row are added as soon as the row is built, which
    gives the same sequence of [addEdge] calls. *)
Definition createGrid : list (list GridNode) * list GridEdge :=
  let acc := fold_left connect_row nodesByRow ([], []) in
  let acc :=
    fold_left
      (fun acc r =>
         match nth_error nodesByRow r, nth_error nodesByRow (r + 1) with
         | Some upperRow, Some lowerRow => connect_rows acc upperRow lowerRow
         | _, _ => acc
         end)
      (seq 0 (length nodesByRow - 1)) acc in
  (nodesByRow, fst acc).

Definition edges : list GridEdge := snd createGrid.
Definition allNodes : list GridNode := concat (fst createGrid).

(** [new Map(allNodes.map((node) => [node.id, node]))] *)
Definition nodeMap : JMap GridNode :=
  fold_left (fun m node => map_set m (id node) node) allNodes [].

(** [new Set(edges.map((edge) => edge.key))] *)
Definition baseEdgeKeys : JSet :=
  fold_left set_add (map key edges) [].

Record DirectionInfo := mkDirection {
  dx : float;
  dy : float;
  length_ : float
}.

Section WithMath.

Context {M : MathLib}.

Definition coordinateKey (x y : float) : string :=
  (toFixed6 x ++ "," ++ toFixed6 y)%string.

Definition nodeCoordinateMap : JMap GridNode :=
  fold_left (fun m node => map_set m (coordinateKey (x node) (y node)) node)
            allNodes [].

(** [createDirectionKey], and the same text in [directionKeyFromNodes]. *)
Definition createDirectionKey (dx dy : float) : option string :=
  let length := Math_hypot dx dy in
  if (length =? 0)%float then None
  else
    let ux :=
      (float_of_Z (Math_round (dx / length * 1000000)) / 1000000)%float in
    let uy :=
      (float_of_Z (Math_round (dy / length * 1000000)) / 1000000)%float in
    Some (toString ux ++ "," ++ toString uy)%string.

Definition directionInfoMap_step (map : JMap DirectionInfo) (edge : GridEdge)
  : JMap DirectionInfo :=
  let dx := (x (to edge) - x (from edge))%float in
  let dy := (y (to edge) - y (from edge))%float in
  let length := Math_hypot dx dy in
  let forwardKey := createDirectionKey dx dy in
  let backwardKey := createDirectionKey (- dx) (- dy) in
  let map :=
    match forwardKey with
    | Some k => if map_has map k then map
                else map_set map k (mkDirection dx dy length)
    | None => map
    end in
  match backwardKey with
  | Some k => if map_has map k then map
              else map_set map k (mkDirection (- dx) (- dy) length)
  | None => map
  end.

Definition directionInfoMap : JMap DirectionInfo :=
  fold_left directionInfoMap_step edges [].

Definition directionKeyFromNodes (from to : GridNode) : option string :=
  createDirectionKey (x to - x from) (y to - y from).

(** The [for (let i = 0; i < steps; i += 1)] loop of [getEdgeSegments];
    [n] counts the turns left.  [None] is a [return null] from inside the
    loop, otherwise the segments pushed and the node reached. *)
Fixpoint walk (direction : DirectionInfo) (n : nat) (current : GridNode)
    (segments : list GridEdge) : option (list GridEdge * GridNode) :=
  match n with
  | O => Some (segments, current)
  | S n' =>
      let nextX := (x current + dx direction)%float in
      let nextY := (y current + dy direction)%float in
      match map_get nodeCoordinateMap (coordinateKey nextX nextY) with
      | None => None
      | Some nextNode =>
          let segmentKey := createEdgeKey current nextNode in
          if negb (set_has baseEdgeKeys segmentKey) then None
          else walk direction n' nextNode
                    (segments ++ [mkEdge segmentKey current nextNode])
      end
  end.

Definition getEdgeSegments (from to : GridNode) : option (list GridEdge) :=
  match directionKeyFromNodes from to with
  | None => None
  | Some directionKey =>
      match map_get directionInfoMap directionKey with
      | None => None
      | Some direction =>
          let totalLength := Math_hypot (x to - x from) (y to - y from) in
          let stepsFloat := (totalLength / length_ direction)%float in
          let steps := Math_round stepsFloat in
          if (steps <=? 0)%Z
             || (0.000001 <? abs (float_of_Z steps - stepsFloat))%float
          then None
          else
            match walk direction (Z.to_nat steps) from [] with
            | None => None
            | Some (segments, current) =>
                if negb (String.eqb (id current) (id to)) then None
                else Some segments
            end
      end
  end.

Definition canCreateEdge (from to : GridNode) : bool :=
  match getEdgeSegments from to with Some _ => true | None => false end.

(** ** The edit handlers of the component

    A handler reads the props ([edges]) and the state ([selectedNodeId]);
    what it does is the argument it passes to [onEdgesChange], if it calls
    it, and the value it leaves in [selectedNodeId]. *)
Record Outcome := mkOutcome {
  onEdgesChange : option (list GridEdge);
  selectedNodeId : option string
}.

Definition handleClearEdges (edges : list GridEdge) (selected : option string)
  : Outcome :=
  if length edges =? 0 then mkOutcome None selected
  else mkOutcome (Some []) None.

Definition handleEdgeContextMenu (edges : list GridEdge)
    (selected : option string) (targetEdge : GridEdge) : Outcome :=
  let nextEdges :=
    filter (fun edge => negb (String.eqb (key edge) (key targetEdge))) edges in
  mkOutcome (Some nextEdges) selected.

(** [segments.forEach] in [handleNodeClick]: the state is [existingKeys]
    and [nextEdges]. *)
Definition push_segment (acc : JSet * list GridEdge) (segment : GridEdge)
  : JSet * list GridEdge :=
  let (existingKeys, nextEdges) := acc in
  if negb (set_has existingKeys (key segment))
  then (set_add existingKeys (key segment), nextEdges ++ [segment])
  else acc.

Definition handleNodeClick (edges : list GridEdge) (selected : option string)
    (node : GridNode) : Outcome :=
  match selected with
  | None => mkOutcome None (Some (id node))
  | Some selectedId =>
      if String.eqb selectedId (id node) then mkOutcome None None
      else
        match map_get nodeMap selectedId with
        | None => mkOutcome None (Some (id node))
        | Some fromNode =>
            if negb (canCreateEdge fromNode node)
            then mkOutcome None (Some (id node))
            else
              match getEdgeSegments fromNode node with
              | None => mkOutcome None selected
              | Some segments =>
                  let existingKeys := fold_left set_add (map key edges) [] in
                  let nextEdges :=
                    snd (fold_left push_segment segments
                                   (existingKeys, edges)) in
                  mkOutcome (Some nextEdges) None
              end
        end
  end.

(** An edit, and the edge list the parent holds afterwards: the parent
    stores whatever [onEdgesChange] receives. *)
Inductive Edit : Type :=
| ClearEdges
| EdgeContextMenu (targetEdge : GridEdge)
| NodeClick (node : GridNode).

Definition handle (edges : list GridEdge) (selected : option string)
    (ev : Edit) : Outcome :=
  match ev with
  | ClearEdges => handleClearEdges edges selected
  | EdgeContextMenu targetEdge =>
      handleEdgeContextMenu edges selected targetEdge
  | NodeClick node => handleNodeClick edges selected node
  end.

Definition apply_edit (st : list GridEdge * option string) (ev : Edit)
  : list GridEdge * option string :=
  let out := handle (fst st) (snd st) ev in
  (match onEdgesChange out with
   | Some nextEdges => nextEdges
   | None => fst st
   end,
   selectedNodeId out).

(** The component starts with no edges and no selected node. *)
Inductive reachable : list GridEdge * option string -> Prop :=
| reachable_init : reachable ([], None)
| reachable_step st ev :
    reachable st -> reachable (apply_edit st ev).

End WithMath.

End Grid.

(* ================================================================== *)
(** * A reference implementation of the numeric library *)
(* ================================================================== *)

(** One implementation of [MathLib], used to run the model on concrete
    drawings.  [Math.round] and [toFixed] are exact on the rational value
    of the double; [Math.hypot] is the square root of the sum of squares;
    the template-literal conversion prints a multiple of 1e-6 (the only
    values it is given) with up to six decimals. *)
Module Reference.

Definition string_of_N (n : N) : string :=
  NilEmpty.string_of_uint (N.to_uint n).

(** [floor(v + 1/2)] for a finite [v = (-1)^s * m * 2^e]. *)
Definition round (v : float) : Z :=
  match Prim2SF v with
  | S754_finite s m e =>
      let n := if s then Z.neg m else Z.pos m in
      if (0 <=? e)%Z then (n * 2 ^ e)%Z
      else ((2 * n + 2 ^ (- e)) / 2 ^ (1 - e))%Z
  | _ => 0%Z
  end.

Definition hypot (a b : float) : float := sqrt (a * a + b * b).

(** [|v| * 10^6] rounded to the nearest integer, a tie going up. *)
Definition micro (v : float) : N :=
  match Prim2SF v with
  | S754_finite _ m e =>
      let n := (Z.pos m * 1000000)%Z in
      Z.to_N (if (0 <=? e)%Z then (n * 2 ^ e)%Z
              else ((2 * n + 2 ^ (- e)) / 2 ^ (1 - e))%Z)
  | _ => 0%N
  end.

Definition pad6 (s : string) : string :=
  (substring 0 (6 - String.length s) "000000" ++ s)%string.

Definition fixed6 (v : float) : string :=
  let n := micro v in
  ((if (v <? 0)%float then "-" else "") ++
   string_of_N (n / 1000000) ++ "." ++
   pad6 (string_of_N (n mod 1000000)))%string.

Fixpoint strip_zeros (s : string) : string :=
  match s with
  | EmptyString => EmptyString
  | String c s' =>
      match strip_zeros s' with
      | EmptyString =>
          if Ascii.eqb c "0" then EmptyString else String c EmptyString
      | t => String c t
      end
  end.

Definition to_string (v : float) : string :=
  let n := micro v in
  let frac := strip_zeros (pad6 (string_of_N (n mod 1000000))) in
  ((if ((v <? 0)%float && negb (n =? 0)%N)%bool then "-" else "") ++
   string_of_N (n / 1000000) ++
   match frac with EmptyString => "" | _ => "." ++ frac end)%string.

Lemma hypot_zero : hypot 0 0 = 0%float.
Proof. reflexivity. Qed.

Definition lib : MathLib :=
  {| Math_hypot := hypot;
     Math_round := round;
     toFixed6 := fixed6;
     toString := to_string;
     Math_hypot_zero := hypot_zero |}.

(** The grid node with a given id ([nodeMap.get(id)]); a node with an
    empty id when there is none. *)
Definition node (name : string) : GridNode :=
  match map_get Grid.nodeMap name with
  | Some n => n
  | None => mkNode "" 0 0 0 0
  end.

(** The unit edge of the grid between two nodes given by id. *)
Definition unit_edge (a b : string) : GridEdge :=
  mkEdge (Grid.createEdgeKey (node a) (node b)) (node a) (node b).

End Reference.

(* ================================================================== *)
(** * Properties *)
(* ================================================================== *)

(** ** Containers *)

Lemma set_has_In (s : JSet) (k : string) : set_has s k = true <-> In k s.
Proof.
  unfold set_has. rewrite existsb_exists. split.
  - intros [y [Hy He]]. apply String.eqb_eq in He. now subst.
  - intros H. exists k. split; [assumption | apply String.eqb_refl].
Qed.

Lemma set_has_not_In (s : JSet) (k : string) :
  set_has s k = false <-> ~ In k s.
Proof.
  rewrite <- set_has_In. destruct (set_has s k); split; congruence.
Qed.

Lemma set_add_In (s : JSet) (k j : string) :
  In j (set_add s k) <-> In j s \/ j = k.
Proof.
  unfold set_add. destruct (set_has s k) eqn:E.
  - apply set_has_In in E. split; [tauto | intros [H | ->]; assumption].
  - rewrite in_app_iff. simpl. intuition congruence.
Qed.

Lemma set_add_NoDup (s : JSet) (k : string) : NoDup s -> NoDup (set_add s k).
Proof.
  intros H. unfold set_add. destruct (set_has s k) eqn:E; [assumption |].
  apply set_has_not_In in E.
  apply NoDup_rev in H. rewrite <- (rev_involutive (s ++ [k])).
  apply NoDup_rev. rewrite rev_app_distr. simpl. constructor.
  - now rewrite <- in_rev.
  - assumption.
Qed.

Lemma fold_set_add_In (l : list string) (s : JSet) (j : string) :
  In j (fold_left set_add l s) <-> In j s \/ In j l.
Proof.
  revert s. induction l as [|a l IH]; intros s; simpl; [tauto |].
  rewrite IH, set_add_In. intuition congruence.
Qed.

Lemma fold_set_add_NoDup (l : list string) (s : JSet) :
  NoDup s -> NoDup (fold_left set_add l s).
Proof.
  revert s. induction l as [|a l IH]; intros s H; simpl; [assumption |].
  apply IH, set_add_NoDup, H.
Qed.

Lemma map_get_In {V} (m : JMap V) (k : string) (v : V) :
  map_get m k = Some v -> In (k, v) m.
Proof.
  induction m as [|[k' v'] m IH]; simpl; [discriminate |].
  destruct (String.eqb k k') eqn:E.
  - apply String.eqb_eq in E. intros [= ->]. subst. now left.
  - intros H. right. now apply IH.
Qed.

Lemma map_get_None {V} (m : JMap V) (k : string) :
  map_get m k = None <-> ~ In k (map_keys m).
Proof.
  induction m as [|[k' v'] m IH]; simpl; [tauto |].
  destruct (String.eqb k k') eqn:E.
  - apply String.eqb_eq in E. subst. split; [discriminate | tauto].
  - apply String.eqb_neq in E. rewrite IH. intuition congruence.
Qed.

Lemma map_has_In {V} (m : JMap V) (k : string) :
  map_has m k = true <-> In k (map_keys m).
Proof.
  unfold map_has. destruct (map_get m k) eqn:E.
  - split; [intros _ | reflexivity].
    destruct (in_dec string_dec k (map_keys m)) as [H | H]; [assumption |].
    apply map_get_None in H. congruence.
  - apply map_get_None in E. split; [discriminate | tauto].
Qed.

Lemma map_get_set_same {V} (m : JMap V) (k : string) (v : V) :
  map_get (map_set m k v) k = Some v.
Proof.
  induction m as [|[k' v'] m IH]; simpl.
  - now rewrite String.eqb_refl.
  - destruct (String.eqb k k') eqn:E; simpl; rewrite E; [reflexivity | exact IH].
Qed.

Lemma map_get_set_other {V} (m : JMap V) (k j : string) (v : V) :
  j <> k -> map_get (map_set m k v) j = map_get m j.
Proof.
  intros Hne. induction m as [|[k' v'] m IH]; simpl.
  - apply String.eqb_neq in Hne. now rewrite Hne.
  - destruct (String.eqb k k') eqn:E; simpl.
    + apply String.eqb_eq in E. subst k'.
      apply String.eqb_neq in Hne. now rewrite Hne.
    + destruct (String.eqb j k'); [reflexivity | exact IH].
Qed.

(** [set] on a key the map has keeps the keys and their order; on a new
    key it adds the key at the end. *)
Lemma map_keys_set {V} (m : JMap V) (k : string) (v : V) :
  map_keys (map_set m k v) =
  if map_has m k then map_keys m else map_keys m ++ [k].
Proof.
  unfold map_has. induction m as [|[k' v'] m IH]; simpl; [reflexivity |].
  destruct (String.eqb k k') eqn:E; simpl; [reflexivity |].
  rewrite IH. now destruct (map_get m k).
Qed.

Lemma map_keys_set_In {V} (m : JMap V) (k j : string) (v : V) :
  In j (map_keys (map_set m k v)) <-> In j (map_keys m) \/ j = k.
Proof.
  rewrite map_keys_set. destruct (map_has m k) eqn:E.
  - apply map_has_In in E. split; [tauto | intros [H | ->]; assumption].
  - rewrite in_app_iff. simpl. intuition congruence.
Qed.

Lemma index_Some_In {A} (a : list A) (i : Z) (v : A) :
  index a i = Some v -> In v a.
Proof.
  unfold index. destruct (i <? 0)%Z; [discriminate |]. apply nth_error_In.
Qed.

Lemma index_in_range {A} (a : list A) (i : Z) :
  (0 <= i < Z.of_nat (length a))%Z -> exists v, index a i = Some v.
Proof.
  intros H. unfold index.
  destruct (i <? 0)%Z eqn:E; [lia |].
  destruct (nth_error a (Z.to_nat i)) eqn:N; [eauto |].
  apply nth_error_None in N. lia.
Qed.

Lemma index_out_of_range {A} (a : list A) (i : Z) :
  (i < 0 \/ Z.of_nat (length a) <= i)%Z -> index a i = None.
Proof.
  intros H. unfold index. destruct (i <? 0)%Z eqn:E; [reflexivity |].
  apply nth_error_None. lia.
Qed.

(** ** [pingPongToLength] *)

Lemma pingPong_loop_length (path : list string) (n : nat) :
  forall forward i, length (pingPong_loop path n forward i) = n.
Proof.
  induction n as [|n IH]; intros forward i; simpl; [reflexivity |].
  now rewrite IH.
Qed.

Lemma pingPongToLength_length (path : list string) (n : nat) :
  path <> [] -> length (pingPongToLength path n) = n.
Proof.
  intros H. unfold pingPongToLength.
  destruct path; [congruence |]. simpl. apply pingPong_loop_length.
Qed.

Lemma pingPongToLength_empty (n : nat) : pingPongToLength [] n = [].
Proof. reflexivity. Qed.

(** On a one-node path the index leaves the array after the first turn
    and never comes back: every later read is [undefined]. *)
Lemma pingPong_loop_past_end (a : string) (n : nat) :
  forall i, (1 <= i)%Z -> pingPong_loop [a] n true i = repeat None n.
Proof.
  induction n as [|n IH]; intros i Hi; simpl; [reflexivity |].
  rewrite index_out_of_range by (simpl; lia).
  destruct (i + 1 =? 0)%Z eqn:E; [lia |].
  rewrite IH by lia. reflexivity.
Qed.

(** C1 (the code departs from the claim).  On a path of one node id [a]
    and a target length of at least 2, [pingPongToLength] returns [a]
    followed by [undefined] in every other place: the index moves to 1
    after the first push, which is neither [path.length - 1] nor [0], so
    the direction never changes and every later read is out of range. *)
Theorem pingPongToLength_single_node (a : string) (n : nat) :
  pingPongToLength [a] (S (S n)) = Some a :: None :: repeat None n.
Proof.
  unfold pingPongToLength. simpl length. simpl Nat.eqb. cbv iota.
  change (pingPong_loop [a] (S (S n)) true 0)
    with (index [a] 0%Z :: pingPong_loop [a] (S n) true 1%Z).
  rewrite (pingPong_loop_past_end a (S n) 1%Z) by lia.
  reflexivity.
Qed.

(** ** [longestTrail]: simple paths of an adjacency map *)

(** [b] is listed as a neighbour of [a]. *)
Definition adjacent (adj : JMap JSet) (a b : string) : Prop :=
  In b (neighbours adj a).

(** Consecutive nodes of [p] are adjacent. *)
Fixpoint chain (adj : JMap JSet) (p : list string) : Prop :=
  match p with
  | a :: ((b :: _) as q) => adjacent adj a b /\ chain adj q
  | _ => True
  end.

(** A simple path of the graph: nodes of the graph, no node twice,
    consecutive nodes adjacent. *)
Definition simple_path (adj : JMap JSet) (p : list string) : Prop :=
  NoDup p /\ chain adj p /\ incl p (graph_nodes adj).

Lemma NoDup_snoc {A} (p : list A) (a : A) :
  NoDup (p ++ [a]) <-> NoDup p /\ ~ In a p.
Proof.
  split.
  - intros H. apply NoDup_rev in H. rewrite rev_app_distr in H. simpl in H.
    inversion H as [|? ? Hn Hd]; subst. split.
    + rewrite <- (rev_involutive p). now apply NoDup_rev.
    + now rewrite in_rev.
  - intros [Hd Hn]. rewrite <- (rev_involutive (p ++ [a])).
    apply NoDup_rev. rewrite rev_app_distr. simpl. constructor.
    + now rewrite <- in_rev.
    + now apply NoDup_rev.
Qed.

Section LongestTrail.

Variable adj : JMap JSet.

Lemma chain_snoc (p : list string) (a b : string) :
  chain adj (p ++ [a]) -> adjacent adj a b -> chain adj ((p ++ [a]) ++ [b]).
Proof.
  intros Hc Hab. rewrite <- app_assoc. simpl.
  induction p as [|c p IH]; simpl in *; [tauto |].
  destruct p as [|d p]; simpl in *; [tauto |].
  destruct Hc as [Hcd Hc]. split; [assumption |]. now apply IH.
Qed.

Lemma neighbours_in_graph (a b : string) :
  adjacent adj a b -> In b (graph_nodes adj).
Proof.
  unfold adjacent, neighbours, graph_nodes. intros H.
  destruct (map_get adj a) as [s|] eqn:E; [| contradiction].
  apply map_get_In in E. apply in_or_app. right.
  apply in_flat_map. exists (a, s). now split.
Qed.

Lemma adjacent_is_key (a b : string) :
  adjacent adj a b -> In a (map_keys adj).
Proof.
  unfold adjacent, neighbours. intros H.
  destruct (map_get adj a) as [s|] eqn:E; [| contradiction].
  apply map_get_In in E. unfold map_keys.
  change a with (fst (a, s)). now apply in_map.
Qed.

(** What one call of [dfs] guarantees about the [longest] it returns. *)
Definition dfs_post (node : string) (path longest : list string)
    (res : option (list string)) : Prop :=
  exists l,
    res = Some l /\
    length longest <= length l /\
    (l = longest \/ simple_path adj l) /\
    (forall q, NoDup (path ++ node :: q) -> chain adj (node :: q) ->
               length path + S (length q) <= length l).

Lemma dfs_spec (fuel : nat) :
  forall node path longest,
    NoDup (path ++ [node]) ->
    chain adj (path ++ [node]) ->
    incl (path ++ [node]) (graph_nodes adj) ->
    length (graph_nodes adj) <= fuel + length path ->
    dfs_post node path longest (dfs fuel adj node path path longest).
Proof.
  induction fuel as [|fuel IH]; intros node path longest Hnd Hch Hin Hfuel.
  - exfalso. apply NoDup_incl_length in Hin; [| assumption].
    rewrite length_app in Hin. simpl in *. lia.
  - pose proof Hnd as Hnd'. apply NoDup_snoc in Hnd' as [Hndp Hnotin].
    simpl. unfold set_add.
    replace (set_has path node) with false
      by (symmetry; now apply set_has_not_In).
    set (path' := path ++ [node]).
    set (longest' := if length longest <? length path' then path' else longest).
    assert (Hl1 : length longest <= length longest').
    { unfold longest'. destruct (Nat.ltb_spec (length longest) (length path')); lia. }
    assert (Hl2 : length path' <= length longest').
    { unfold longest'. destruct (Nat.ltb_spec (length longest) (length path')); lia. }
    assert (Hl3 : longest' = longest \/ simple_path adj longest').
    { unfold longest'. destruct (length longest <? length path'); [right | now left].
      now repeat split. }
    assert (Hlen : length path' = length path + 1).
    { unfold path'. rewrite length_app. reflexivity. }
    (* the loop over the neighbours *)
    assert (Hloop : forall ns l,
      (forall next, In next ns -> adjacent adj node next) ->
      exists l',
        fold_left
          (fun acc next =>
             match acc with
             | None => None
             | Some longest0 =>
                 if set_has path' next then Some longest0
                 else dfs fuel adj next path' path' longest0
             end) ns (Some l) = Some l' /\
        length l <= length l' /\
        (l' = l \/ simple_path adj l') /\
        (forall next q, In next ns -> NoDup (path' ++ next :: q) ->
                        chain adj (next :: q) ->
                        length path' + S (length q) <= length l')).
    { induction ns as [|n0 ns IHns]; intros l Hadj.
      - exists l. simpl. repeat split; [lia | now left | contradiction].
      - simpl. destruct (set_has path' n0) eqn:Ehas.
        + destruct (IHns l) as [l' [He [Hm [Hv Hmax]]]].
          { intros; apply Hadj; now right. }
          exists l'. repeat split; try assumption.
          intros next q [<- | Hn] Hq Hc; [| exact (Hmax next q Hn Hq Hc)].
          exfalso. apply set_has_In in Ehas.
          apply NoDup_remove_2 in Hq. apply Hq, in_or_app. now left.
        + apply set_has_not_In in Ehas.
          destruct (IH n0 path' l) as [l1 [He1 [Hm1 [Hv1 Hmax1]]]].
          { apply NoDup_snoc. now split. }
          { apply chain_snoc; [assumption |]. apply Hadj. now left. }
          { intros z Hz. apply in_app_or in Hz as [Hz | [<- | []]].
            - now apply Hin.
            - apply (neighbours_in_graph node). apply Hadj. now left. }
          { lia. }
          rewrite He1.
          destruct (IHns l1) as [l' [He [Hm [Hv Hmax]]]].
          { intros; apply Hadj; now right. }
          exists l'. repeat split; [assumption | lia | |].
          * destruct Hv as [-> | Hv]; [| now right].
            destruct Hv1 as [-> | Hv1]; [now left | now right].
          * intros next q [<- | Hn] Hq Hc; [| exact (Hmax next q Hn Hq Hc)].
            specialize (Hmax1 q Hq Hc). lia. }
    destruct (Hloop (neighbours adj node) longest') as [l' [He [Hm [Hv Hmax]]]].
    { intros next Hn. exact Hn. }
    exists l'. repeat split; [exact He | lia | |].
    + destruct Hv as [-> | Hv]; [exact Hl3 | now right].
    + intros q Hq Hc. destruct q as [|next q]; [simpl; lia |].
      simpl in Hc. destruct Hc as [Hadj Hc].
      assert (Hq' : NoDup (path' ++ next :: q)).
      { unfold path'. now rewrite <- app_assoc. }
      specialize (Hmax next q Hadj Hq' Hc). simpl. lia.
Qed.

(** The loop of [longestTrail] over the keys, from any [longest]. *)
Lemma longestTrail_loop_spec (fuel : nat) :
  length (graph_nodes adj) <= fuel ->
  forall keys longest,
    incl keys (map_keys adj) ->
    exists l,
      fold_left
        (fun acc start =>
           match acc with
           | None => None
           | Some longest0 => dfs fuel adj start [] [] longest0
           end) keys (Some longest) = Some l /\
      length longest <= length l /\
      (l = longest \/ simple_path adj l) /\
      (forall start q, In start keys -> NoDup (start :: q) ->
                       chain adj (start :: q) -> S (length q) <= length l).
Proof.
  intros Hfuel. induction keys as [|k keys IH]; intros longest Hk.
  - exists longest. simpl. repeat split; [lia | now left | contradiction].
  - simpl.
    destruct (dfs_spec fuel k [] longest) as [l1 [He1 [Hm1 [Hv1 Hmax1]]]].
    + simpl. constructor; [intros [] | constructor].
    + exact I.
    + intros z [<- | []]. unfold graph_nodes. apply in_or_app. left.
      apply Hk. now left.
    + simpl. lia.
    + rewrite He1. destruct (IH l1) as [l [He [Hm [Hv Hmax]]]].
      { intros z Hz. apply Hk. now right. }
      exists l. repeat split; [assumption | lia | |].
      * destruct Hv as [-> | Hv]; [| now right].
        destruct Hv1 as [-> | Hv1]; [now left | now right].
      * intros start q [<- | Hs] Hq Hc; [| exact (Hmax start q Hs Hq Hc)].
        specialize (Hmax1 q Hq Hc). simpl in Hmax1. lia.
Qed.

(** The fuel [longestTrail] gives the search is never used up. *)
Lemma longestTrail_fuel_enough :
  longestTrail_fuel (S (length (graph_nodes adj))) adj
  = Some (longestTrail adj).
Proof.
  unfold longestTrail.
  destruct (longestTrail_loop_spec (S (length (graph_nodes adj)))
              (Nat.le_succ_diag_r _) (map_keys adj) [] (incl_refl _))
    as [l [He _]].
  unfold longestTrail_fuel. now rewrite He.
Qed.

Lemma longestTrail_simple_path : simple_path adj (longestTrail adj).
Proof.
  destruct (longestTrail_loop_spec (S (length (graph_nodes adj)))
              (Nat.le_succ_diag_r _) (map_keys adj) [] (incl_refl _))
    as [l [He [_ [Hv _]]]].
  unfold longestTrail, longestTrail_fuel. rewrite He.
  destruct Hv as [-> | Hv]; [| exact Hv].
  repeat split; [constructor | intros z []].
Qed.

Lemma longestTrail_longest (q : list string) :
  simple_path adj q -> length q <= length (longestTrail adj).
Proof.
  intros [Hnd [Hch Hin]].
  destruct (longestTrail_loop_spec (S (length (graph_nodes adj)))
              (Nat.le_succ_diag_r _) (map_keys adj) [] (incl_refl _))
    as [l [He [_ [_ Hmax]]]].
  unfold longestTrail, longestTrail_fuel. rewrite He.
  destruct q as [|a q]; [simpl; lia |].
  destruct (in_dec string_dec a (map_keys adj)) as [Hk | Hk].
  - simpl. now apply (Hmax a q).
  - (* [a] has no entry, hence no neighbour: the path is [a] alone, and
       the map has some key since it mentions [a]. *)
    destruct q as [|b q].
    + assert (Ha : In a (graph_nodes adj)) by (apply Hin; now left).
      unfold graph_nodes in Ha. apply in_app_or in Ha as [Ha | Ha]; [tauto |].
      apply in_flat_map in Ha as [[k s] [Hks _]].
      assert (Hkk : In k (map_keys adj)).
      { unfold map_keys. change k with (fst (k, s)). now apply in_map. }
      specialize (Hmax k [] Hkk).
      simpl in *. apply Hmax; [constructor; [intros [] | constructor] | exact I].
    + simpl in Hch. destruct Hch as [Hab _].
      exfalso. apply Hk. exact (adjacent_is_key a b Hab).
Qed.

End LongestTrail.

(** ** [buildAdjacency] *)

(** [if (!adj.has(k)) adj.set(k, new Set())] *)
Definition ensure_key (adj : JMap JSet) (k : string) : JMap JSet :=
  if map_has adj k then adj else map_set adj k [].

Lemma ensure_key_has (adj : JMap JSet) (k : string) :
  map_has (ensure_key adj k) k = true.
Proof.
  unfold ensure_key. destruct (map_has adj k) eqn:E; [exact E |].
  unfold map_has. now rewrite map_get_set_same.
Qed.

Lemma ensure_key_keys (adj : JMap JSet) (k j : string) :
  In j (map_keys (ensure_key adj k)) <-> In j (map_keys adj) \/ j = k.
Proof.
  unfold ensure_key. destruct (map_has adj k) eqn:E.
  - apply map_has_In in E. split; [tauto | intros [H | ->]; assumption].
  - apply map_keys_set_In.
Qed.

Lemma ensure_key_neighbours (adj : JMap JSet) (k a : string) :
  neighbours (ensure_key adj k) a = neighbours adj a.
Proof.
  unfold ensure_key, neighbours. destruct (map_has adj k) eqn:E; [reflexivity |].
  destruct (string_dec a k) as [-> | Hne].
  - rewrite map_get_set_same. unfold map_has in E.
    now destruct (map_get adj k).
  - now rewrite map_get_set_other.
Qed.

Lemma adj_add_keys (adj : JMap JSet) (k v : string) :
  map_keys (adj_add adj k v) = map_keys adj.
Proof.
  unfold adj_add. destruct (map_get adj k) eqn:E; [| reflexivity].
  rewrite map_keys_set. unfold map_has. now rewrite E.
Qed.

Lemma adj_add_neighbours (adj : JMap JSet) (k v a b : string) :
  map_has adj k = true ->
  (In b (neighbours (adj_add adj k v) a) <->
   In b (neighbours adj a) \/ (a = k /\ b = v)).
Proof.
  unfold map_has, adj_add, neighbours. intros H.
  destruct (map_get adj k) as [s|] eqn:E; [| discriminate].
  destruct (string_dec a k) as [-> | Hne].
  - rewrite map_get_set_same, E, set_add_In. tauto.
  - rewrite map_get_set_other by assumption. tauto.
Qed.

Lemma buildAdjacency_step_unfold (adj : JMap JSet) (e : GridEdge) :
  buildAdjacency_step adj e =
  adj_add
    (adj_add (ensure_key (ensure_key adj (id (from e))) (id (to e)))
             (id (from e)) (id (to e)))
    (id (to e)) (id (from e)).
Proof. reflexivity. Qed.

Lemma map_has_keys_eq {V} (m m' : JMap V) (k : string) :
  map_keys m' = map_keys m -> map_has m' k = map_has m k.
Proof.
  intros H. destruct (map_has m k) eqn:E.
  - apply map_has_In. rewrite H. now apply map_has_In.
  - destruct (map_has m' k) eqn:E'; [| reflexivity].
    apply map_has_In in E'. rewrite H in E'. apply map_has_In in E'. congruence.
Qed.

Lemma buildAdjacency_step_keys (adj : JMap JSet) (e : GridEdge) (j : string) :
  In j (map_keys (buildAdjacency_step adj e)) <->
  In j (map_keys adj) \/ j = id (from e) \/ j = id (to e).
Proof.
  rewrite buildAdjacency_step_unfold, !adj_add_keys, !ensure_key_keys. tauto.
Qed.

Lemma buildAdjacency_step_neighbours (adj : JMap JSet) (e : GridEdge)
    (a b : string) :
  In b (neighbours (buildAdjacency_step adj e) a) <->
  In b (neighbours adj a)
  \/ (a = id (from e) /\ b = id (to e))
  \/ (a = id (to e) /\ b = id (from e)).
Proof.
  rewrite buildAdjacency_step_unfold.
  set (adj2 := ensure_key (ensure_key adj (id (from e))) (id (to e))).
  assert (Hf : map_has adj2 (id (from e)) = true).
  { apply map_has_In. unfold adj2. rewrite !ensure_key_keys. tauto. }
  assert (Ht : map_has adj2 (id (to e)) = true) by apply ensure_key_has.
  rewrite adj_add_neighbours.
  - rewrite adj_add_neighbours by exact Hf.
    unfold adj2. rewrite !ensure_key_neighbours. tauto.
  - rewrite (map_has_keys_eq adj2) by apply adj_add_keys. exact Ht.
Qed.

Lemma fold_buildAdjacency_keys (edges : list GridEdge) :
  forall adj j,
    In j (map_keys (fold_left buildAdjacency_step edges adj)) <->
    In j (map_keys adj)
    \/ exists e, In e edges /\ (j = id (from e) \/ j = id (to e)).
Proof.
  induction edges as [|e edges IH]; intros adj j; simpl.
  - split; [tauto | intros [H | [e [[] _]]]; exact H].
  - rewrite IH, buildAdjacency_step_keys. split.
    + intros [[H | H] | [e' [He' H]]]; [tauto | right; exists e; tauto |].
      right. exists e'. tauto.
    + intros [H | [e' [[-> | He'] H]]]; [tauto | tauto |].
      right. exists e'. tauto.
Qed.

Lemma fold_buildAdjacency_neighbours (edges : list GridEdge) :
  forall adj a b,
    In b (neighbours (fold_left buildAdjacency_step edges adj) a) <->
    In b (neighbours adj a)
    \/ exists e, In e edges /\
         ((a = id (from e) /\ b = id (to e))
          \/ (a = id (to e) /\ b = id (from e))).
Proof.
  induction edges as [|e edges IH]; intros adj a b; simpl.
  - split; [tauto | intros [H | [e [[] _]]]; exact H].
  - rewrite IH, buildAdjacency_step_neighbours. split.
    + intros [[H | H] | [e' [He' H]]]; [tauto | right; exists e; tauto |].
      right. exists e'. tauto.
    + intros [H | [e' [[-> | He'] H]]]; [tauto | tauto |].
      right. exists e'. tauto.
Qed.

(** The keys of the adjacency map are the ids of the end nodes of the
    edges. *)
Lemma buildAdjacency_keys (edges : list GridEdge) (j : string) :
  In j (map_keys (buildAdjacency edges)) <->
  exists e, In e edges /\ (j = id (from e) \/ j = id (to e)).
Proof.
  unfold buildAdjacency. rewrite fold_buildAdjacency_keys. simpl. tauto.
Qed.

(** [b] is a neighbour of [a] exactly when some edge joins them, in
    either direction. *)
Lemma buildAdjacency_adjacent (edges : list GridEdge) (a b : string) :
  adjacent (buildAdjacency edges) a b <->
  exists e, In e edges /\
    ((a = id (from e) /\ b = id (to e)) \/ (a = id (to e) /\ b = id (from e))).
Proof.
  unfold adjacent, buildAdjacency. rewrite fold_buildAdjacency_neighbours.
  simpl. tauto.
Qed.

Lemma longestTrail_nonempty (edges : list GridEdge) :
  edges <> [] -> longestTrail (buildAdjacency edges) <> [].
Proof.
  intros Hne. destruct edges as [|e edges]; [congruence |].
  assert (Hk : In (id (from e)) (map_keys (buildAdjacency (e :: edges)))).
  { apply buildAdjacency_keys. exists e. split; [now left | now left]. }
  assert (Hp : simple_path (buildAdjacency (e :: edges)) [id (from e)]).
  { repeat split.
    - constructor; [intros [] | constructor].
    - intros z [<- | []]. unfold graph_nodes. apply in_or_app. now left. }
  apply longestTrail_longest in Hp. intros E. rewrite E in Hp. simpl in Hp. lia.
Qed.

(** The 4-cycle A-B-C-D-A. *)
Definition plain_node (name : string) : GridNode := mkNode name 0 0 0 0.

Definition plain_edge (a b : string) : GridEdge :=
  mkEdge (a ++ "-" ++ b)%string (plain_node a) (plain_node b).

Definition cycle4 : list GridEdge :=
  [plain_edge "A" "B"; plain_edge "B" "C"; plain_edge "C" "D";
   plain_edge "D" "A"].

(** C3.  For every adjacency map, [longestTrail] returns a simple path
    of the graph (its nodes are nodes of the map, no node id occurs twice,
    consecutive nodes are adjacent), and no simple path of the graph has
    more nodes.  On the 4-cycle A-B-C-D-A the result has exactly the four
    distinct nodes A, B, C, D. *)
Theorem longestTrail_longest_simple_path :
  (forall adj : JMap JSet,
     simple_path adj (longestTrail adj) /\
     forall q, simple_path adj q -> length q <= length (longestTrail adj))
  /\ longestTrail (buildAdjacency cycle4) = ["A"; "B"; "C"; "D"].
Proof.
  split.
  - intros adj. split.
    + apply longestTrail_simple_path.
    + apply longestTrail_longest.
  - vm_compute. reflexivity.
Qed.

(** The three-node path A-B-C of the 4-cycle is no longer than the
    trail found. *)
Lemma longestTrail_longest_simple_path_witness :
  length ["A"; "B"; "C"] <= length (longestTrail (buildAdjacency cycle4)).
Proof.
  apply (proj1 longestTrail_longest_simple_path (buildAdjacency cycle4)).
  unfold simple_path. split; [| split].
  - repeat constructor; simpl; intuition discriminate.
  - vm_compute. tauto.
  - intros z Hz. vm_compute in Hz. vm_compute. tauto.
Defined.

(** ** The Rhythm and Phrase generators *)

Lemma nodeOrder_length (edges : list GridEdge) :
  edges <> [] ->
  length (pingPongToLength (longestTrail (buildAdjacency edges)) 64) = 64.
Proof.
  intros H. apply pingPongToLength_length, longestTrail_nonempty, H.
Qed.

Lemma map_result_spec {A B} (f : A -> result B) (xs : list A) :
  (forall a, exists b, f a = Ok b) ->
  exists bs,
    map_result f xs = Ok bs /\
    length bs = length xs /\
    forall i a, nth_error xs i = Some a ->
                exists b, nth_error bs i = Some b /\ f a = Ok b.
Proof.
  intros Hf. induction xs as [|a xs [bs [He [Hl Hn]]]]; simpl.
  - exists []. repeat split. intros [|i] a H; discriminate.
  - destruct (Hf a) as [b Hb]. rewrite Hb, He. simpl.
    exists (b :: bs). repeat split; [simpl; congruence |].
    intros [|i] a' H; simpl in *.
    + injection H as <-. now exists b.
    + now apply Hn.
Qed.

Section Phrase.

Variable layout : list (list Z).

(** The callback never throws: an [undefined] id has degree 0, and the
    callback returns [null] before it reaches [parseNodeId]. *)
Lemma phrase_event_ok (degreeMap : JMap nat) (id : option string) :
  exists ev, phrase_event layout degreeMap id = Ok ev.
Proof.
  unfold phrase_event. destruct id as [k|]; simpl.
  - destruct (degree_of degreeMap k <=? 2); [eauto |].
    destruct (parseNodeId k) as [r c].
    destruct (getNoteFromNode layout r c); eauto.
  - eauto.
Qed.

Lemma generatePhraseSequence_ok (edges : list GridEdge) :
  exists sequence,
    generatePhraseSequence layout edges =
      Ok (mkGenerated sequence
            (pingPongToLength (longestTrail (buildAdjacency edges)) 64)) /\
    map_result (phrase_event layout (computeDegreeMap edges))
      (pingPongToLength (longestTrail (buildAdjacency edges)) 64)
    = Ok sequence.
Proof.
  unfold generatePhraseSequence.
  destruct (map_result_spec (phrase_event layout (computeDegreeMap edges))
              (pingPongToLength (longestTrail (buildAdjacency edges)) 64)
              (phrase_event_ok _)) as [bs [He _]].
  exists bs. rewrite He. now split.
Qed.

(** C2, as the code has it.  For every edge set that is not empty,
    [generateRhythmSequence] and [generatePhraseSequence] each return a
    [sequence] and a [nodeOrder] of length exactly 64 (the Phrase generator
    without throwing); for the empty edge set both generators return an
    empty [sequence] and an empty [nodeOrder]. *)
Theorem generators_length (edges : list GridEdge) :
  (edges <> [] ->
   (length (sequence (generateRhythmSequence edges)) = 64 /\
    length (nodeOrder (generateRhythmSequence edges)) = 64) /\
   exists g, generatePhraseSequence layout edges = Ok g /\
             length (sequence g) = 64 /\ length (nodeOrder g) = 64)
  /\ generateRhythmSequence [] = mkGenerated [] []
  /\ generatePhraseSequence layout [] = Ok (mkGenerated [] []).
Proof.
  split; [| split; reflexivity].
  intros Hne. pose proof (nodeOrder_length edges Hne) as H64. split.
  - unfold generateRhythmSequence. simpl. now rewrite length_map.
  - unfold generatePhraseSequence.
    destruct (map_result_spec (phrase_event layout (computeDegreeMap edges))
                (pingPongToLength (longestTrail (buildAdjacency edges)) 64)
                (phrase_event_ok _)) as [bs [He [Hl _]]].
    rewrite He. simpl. eexists. split; [reflexivity |]. simpl.
    split; congruence.
Qed.

(** C8.  [generatePhraseSequence] never throws.  At every position [i],
    with [d] the degree of [nodeOrder[i]] (0 when the id is not in the
    degree map): the event is [null] when [d <= 2]; when [d >= 3] the id
    is a string, and the event is a note with the pitch the table gives for
    the parsed [(row, col)] and velocity [Math.min(1, d / 6)] when the
    lookup finds a pitch, and [null] when the lookup is out of the table's
    bounds. *)
Theorem generatePhraseSequence_events (edges : list GridEdge) :
  exists g,
    generatePhraseSequence layout edges = Ok g /\
    forall i id,
      nth_error (nodeOrder g) i = Some id ->
      exists ev,
        nth_error (sequence g) i = Some ev /\
        let d := degree_at (computeDegreeMap edges) id in
        (d <= 2 -> ev = None) /\
        (3 <= d ->
         exists k row col,
           id = Some k /\ parseNodeId k = (row, col) /\
           match getNoteFromNode layout row col with
           | Some pitch =>
               ev = Some (mkNote pitch (Math_min 1 (float_of_nat d / 6)))
           | None => ev = None
           end).
Proof.
  unfold generatePhraseSequence.
  destruct (map_result_spec (phrase_event layout (computeDegreeMap edges))
              (pingPongToLength (longestTrail (buildAdjacency edges)) 64)
              (phrase_event_ok _)) as [bs [He [_ Hn]]].
  rewrite He. simpl. eexists. split; [reflexivity |]. simpl.
  intros i id Hi. destruct (Hn i id Hi) as [ev [Hev Hf]].
  exists ev. split; [exact Hev |].
  unfold phrase_event in Hf.
  destruct (Nat.leb_spec (degree_at (computeDegreeMap edges) id) 2) as [Hd | Hd].
  - injection Hf as <-. split; [reflexivity | lia].
  - split; [lia |]. intros _.
    destruct id as [k|]; [| discriminate].
    destruct (parseNodeId k) as [r c] eqn:Ep.
    exists k, r, c. split; [reflexivity |]. split; [exact Ep |].
    destruct (getNoteFromNode layout r c); injection Hf as <-; reflexivity.
Qed.

End Phrase.

(** C7.  At every position [i] of the result of [generateRhythmSequence],
    with [d] the degree [computeDegreeMap] gives [nodeOrder[i]] (0 when the
    id is absent): the event is [null] when [d <= 2], ["kick"] when
    [d = 3], ["snare"] when [d = 4], ["clap"] when [d = 5] and ["hihat"]
    when [d >= 6]. *)
Theorem generateRhythmSequence_events (edges : list GridEdge) (i : nat)
    (id : option string) :
  nth_error (nodeOrder (generateRhythmSequence edges)) i = Some id ->
  exists ev,
    nth_error (sequence (generateRhythmSequence edges)) i = Some ev /\
    let d := degree_at (computeDegreeMap edges) id in
    (d <= 2 -> ev = None) /\
    (d = 3 -> ev = Some "kick") /\
    (d = 4 -> ev = Some "snare") /\
    (d = 5 -> ev = Some "clap") /\
    (6 <= d -> ev = Some "hihat").
Proof.
  unfold generateRhythmSequence. simpl. intros Hi.
  exists (rhythm_event (computeDegreeMap edges) id). split.
  - now apply map_nth_error.
  - unfold rhythm_event.
    set (d := degree_at (computeDegreeMap edges) id).
    destruct (Nat.leb_spec d 2); [repeat split; intros; (reflexivity || lia) |].
    destruct (Nat.eqb_spec d 3); [repeat split; intros; (reflexivity || lia) |].
    destruct (Nat.eqb_spec d 4); [repeat split; intros; (reflexivity || lia) |].
    destruct (Nat.eqb_spec d 5); [repeat split; intros; (reflexivity || lia) |].
    destruct (Nat.leb_spec 6 d); repeat split; intros; (reflexivity || lia).
Qed.

(** ** [parseNodeId] *)

Fixpoint all_digits (s : string) : bool :=
  match s with
  | String c s' => if is_digit c then all_digits s' else false
  | EmptyString => true
  end.

(** [s] does not begin with a digit. *)
Definition no_leading_digit (s : string) : Prop :=
  match s with
  | String c _ => is_digit c = false
  | EmptyString => True
  end.

Lemma string_app_assoc (a b c : string) :
  ((a ++ b) ++ c = a ++ (b ++ c))%string.
Proof. induction a as [|x a IH]; simpl; [reflexivity | now rewrite IH]. Qed.

Lemma take_digits_spec (s : string) :
  forall d r, take_digits s = (d, r) ->
              (s = d ++ r)%string /\ all_digits d = true /\ no_leading_digit r.
Proof.
  induction s as [|c s IH]; simpl; intros d r H.
  - injection H as <- <-. repeat split.
  - destruct (is_digit c) eqn:Ec.
    + destruct (take_digits s) as [d' r'] eqn:Et. injection H as <- <-.
      destruct (IH d' r' eq_refl) as [-> [Hd Hr]].
      simpl. rewrite Ec. repeat split; assumption.
    + injection H as <- <-. repeat split. exact Ec.
Qed.

Lemma take_digits_app (d rest : string) :
  all_digits d = true ->
  take_digits (d ++ rest) =
    ((d ++ fst (take_digits rest))%string, snd (take_digits rest)).
Proof.
  induction d as [|c d IH]; simpl; intros H.
  - now destruct (take_digits rest).
  - destruct (is_digit c); [| discriminate]. now rewrite IH.
Qed.

Lemma take_digits_stop (rest : string) :
  no_leading_digit rest -> take_digits rest = (EmptyString, rest).
Proof.
  destruct rest as [|c rest]; simpl; [reflexivity |]. now intros ->.
Qed.

Lemma string_app_empty_r (s : string) : (s ++ "")%string = s.
Proof. induction s as [|c s IH]; simpl; [reflexivity | now rewrite IH]. Qed.

Lemma string_of_uint_digits (d : Decimal.uint) :
  all_digits (NilEmpty.string_of_uint d) = true.
Proof. induction d; simpl; assumption || reflexivity. Qed.

Lemma string_of_nat_digits (n : nat) : all_digits (string_of_nat n) = true.
Proof. apply string_of_uint_digits. Qed.

Lemma string_of_nat_nonempty (n : nat) :
  exists c s, string_of_nat n = String c s.
Proof.
  unfold string_of_nat.
  assert (H : Nat.to_uint n <> Decimal.Nil).
  { rewrite <- (DecimalNat.Unsigned.of_to n) at 1.
    rewrite DecimalNat.Unsigned.to_of. apply DecimalFacts.unorm_nonnil. }
  destruct (Nat.to_uint n); simpl; eauto. congruence.
Qed.

Lemma parseInt_from_uint (d : Decimal.uint) :
  forall acc,
    parseInt_from acc (NilEmpty.string_of_uint d) = Nat.of_uint_acc d acc.
Proof.
  induction d; intros acc; simpl; try reflexivity;
    rewrite IHd; f_equal; rewrite Nat.tail_mul_spec; simpl; lia.
Qed.

Lemma parseInt_string_of_nat (n : nat) : parseInt (string_of_nat n) = n.
Proof.
  unfold parseInt, string_of_nat. rewrite parseInt_from_uint.
  apply DecimalNat.Unsigned.of_to.
Qed.

(** The pattern matches at the head of [r<d1>c<d2><post>]; the second
    group takes the digits of [d2] and any digits that follow. *)
Lemma match_here_hit (d1 d2 post : string) :
  all_digits d1 = true -> d1 <> EmptyString ->
  all_digits d2 = true -> d2 <> EmptyString ->
  match_here ("r" ++ d1 ++ "c" ++ d2 ++ post) =
    Some (d1, (d2 ++ fst (take_digits post))%string).
Proof.
  intros H1 N1 H2 N2. simpl.
  rewrite (take_digits_app d1) by assumption.
  rewrite (take_digits_stop (String "c" _)) by reflexivity. simpl.
  rewrite string_app_empty_r.
  destruct d1 as [|c d1]; [congruence |].
  rewrite (take_digits_app d2) by assumption. simpl.
  destruct d2 as [|e d2]; [congruence |]. reflexivity.
Qed.

Lemma match_here_inv (s m1 m2 : string) :
  match_here s = Some (m1, m2) ->
  exists post,
    (s = "r" ++ m1 ++ "c" ++ m2 ++ post)%string /\
    all_digits m1 = true /\ m1 <> EmptyString /\
    all_digits m2 = true /\ m2 <> EmptyString.
Proof.
  unfold match_here. destruct s as [|c1 s1]; [discriminate |].
  destruct (Ascii.eqb_spec c1 "r") as [-> | _]; [| discriminate].
  destruct (take_digits s1) as [d1 r1] eqn:E1.
  destruct d1 as [|d ds]; [discriminate |].
  destruct r1 as [|c2 s2]; [discriminate |].
  destruct (Ascii.eqb_spec c2 "c") as [-> | _]; [| discriminate].
  destruct (take_digits s2) as [d2 r2] eqn:E2.
  destruct d2 as [|e es]; [discriminate |].
  intros [= <- <-].
  apply take_digits_spec in E1 as [-> [Hd1 _]].
  apply take_digits_spec in E2 as [-> [Hd2 _]].
  exists r2. repeat split; try assumption; try discriminate.
Qed.

Lemma regex_match_unfold (s : string) :
  regex_match s =
  match match_here s with
  | Some groups => Some groups
  | None =>
      match s with
      | String _ s' => regex_match s'
      | EmptyString => None
      end
  end.
Proof. destruct s; reflexivity. Qed.

(** A string with an [r<digits>c<digits>] substring is matched. *)
Lemma regex_match_finds (pre d1 d2 post : string) :
  all_digits d1 = true -> d1 <> EmptyString ->
  all_digits d2 = true -> d2 <> EmptyString ->
  regex_match (pre ++ "r" ++ d1 ++ "c" ++ d2 ++ post) <> None.
Proof.
  intros H1 N1 H2 N2. induction pre as [|c pre IH].
  - rewrite regex_match_unfold.
    change ("" ++ "r" ++ d1 ++ "c" ++ d2 ++ post)%string
      with ("r" ++ d1 ++ "c" ++ d2 ++ post)%string.
    rewrite match_here_hit by assumption. discriminate.
  - rewrite regex_match_unfold.
    destruct (match_here _); [discriminate |]. exact IH.
Qed.

(** What is matched is an [r<digits>c<digits>] substring. *)
Lemma regex_match_inv (s m1 m2 : string) :
  regex_match s = Some (m1, m2) ->
  exists pre post,
    (s = pre ++ "r" ++ m1 ++ "c" ++ m2 ++ post)%string /\
    all_digits m1 = true /\ m1 <> EmptyString /\
    all_digits m2 = true /\ m2 <> EmptyString.
Proof.
  induction s as [|c s IH]; rewrite regex_match_unfold.
  - simpl. discriminate.
  - destruct (match_here (String c s)) as [[g1 g2]|] eqn:E.
    + intros [= <- <-]. apply match_here_inv in E as [post H].
      exists EmptyString, post. exact H.
    + intros H. destruct (IH H) as [pre [post [-> Hrest]]].
      exists (String c pre), post. split; [reflexivity | exact Hrest].
Qed.

Lemma parseNodeId_node_id (row col : nat) :
  parseNodeId (node_id row col) = (Z.of_nat row, Z.of_nat col).
Proof.
  unfold parseNodeId, node_id. rewrite regex_match_unfold.
  destruct (string_of_nat_nonempty row) as [c1 [s1 E1]].
  destruct (string_of_nat_nonempty col) as [c2 [s2 E2]].
  replace (string_of_nat col) with (string_of_nat col ++ "")%string
    by apply string_app_empty_r.
  rewrite match_here_hit;
    try apply string_of_nat_digits; try (rewrite ?E1, ?E2; discriminate).
  simpl. rewrite string_app_empty_r, !parseInt_string_of_nat. reflexivity.
Qed.

(** [parseNodeId] gives every node of the grid its own row and column. *)
Definition parses_to_own_position (n : GridNode) : bool :=
  let (r, c) := parseNodeId (id n) in ((r =? row n) && (c =? col n))%Z.

(** C10.  For all natural numbers [row] and [col] up to 2^53 (where a
    number prints all its digits and [parseInt] is exact), [parseNodeId]
    applied to ["r" + row + "c" + col] returns [{row, col}]; so for every
    node of the grid [createGrid] builds, [parseNodeId(node.id)] is the
    node's own row and column; and the [(0, 0)] fallback is taken exactly
    by the ids that have no substring of the form [r<digits>c<digits>]. *)
Theorem parseNodeId_round_trip :
  (forall row col : nat,
     (Z.of_nat row <= 2 ^ 53)%Z -> (Z.of_nat col <= 2 ^ 53)%Z ->
     parseNodeId (node_id row col) = (Z.of_nat row, Z.of_nat col))
  /\ (forall n, In n Grid.allNodes -> parseNodeId (id n) = (row n, col n))
  /\ (forall s,
        regex_match s = None <->
        ~ exists pre d1 d2 post,
            (s = pre ++ "r" ++ d1 ++ "c" ++ d2 ++ post)%string /\
            all_digits d1 = true /\ d1 <> EmptyString /\
            all_digits d2 = true /\ d2 <> EmptyString).
Proof.
  split; [intros row col _ _; apply parseNodeId_node_id | split].
  - assert (H : forallb parses_to_own_position Grid.allNodes = true)
      by (vm_compute; reflexivity).
    rewrite forallb_forall in H. intros n Hn. specialize (H n Hn).
    unfold parses_to_own_position in H.
    destruct (parseNodeId (id n)) as [r c].
    apply andb_prop in H as [Hr Hc].
    apply Z.eqb_eq in Hr, Hc. now subst.
  - intros s. split.
    + intros Hnone [pre [d1 [d2 [post [-> [H1 [N1 [H2 N2]]]]]]]].
      now apply (regex_match_finds pre d1 d2 post).
    + intros Hno. destruct (regex_match s) as [[m1 m2]|] eqn:E; [| reflexivity].
      exfalso. apply Hno. apply regex_match_inv in E as [pre [post H]].
      now exists pre, m1, m2, post.
Qed.

(** Row 3 and column 2, and the node of the grid there. *)
Lemma parseNodeId_round_trip_witness :
  ((Z.of_nat 3 <= 2 ^ 53)%Z /\ (Z.of_nat 2 <= 2 ^ 53)%Z /\
   parseNodeId (node_id 3 2) = (3%Z, 2%Z))
  /\ parseNodeId "r3c2" = (3%Z, 2%Z).
Proof.
  assert (H3 : (Z.of_nat 3 <= 2 ^ 53)%Z) by (apply Z.leb_le; reflexivity).
  assert (H2 : (Z.of_nat 2 <= 2 ^ 53)%Z) by (apply Z.leb_le; reflexivity).
  split.
  - split; [exact H3 | split; [exact H2 |]].
    exact (proj1 parseNodeId_round_trip 3 2 H3 H2).
  - apply (proj1 (proj2 parseNodeId_round_trip)
             (mkNode "r3c2" 144 (48 + 3 * Grid.VERTICAL_SPACING) 3 2)).
    vm_compute. tauto.
Defined.

(** C10 as stated fails at row 1e21, column 0: the id is [r1e+21c0], in
    which the digit after [r] is followed by [e], so the pattern matches
    nowhere and [parseNodeId] falls back to [(0, 0)], not the row. *)
Lemma parseNodeId_exponent_row :
  template_id (10 ^ 21) 0 = Some "r1e+21c0"
  /\ parseNodeId "r1e+21c0" = (0%Z, 0%Z)
  /\ parseNodeId "r1e+21c0" <> ((10 ^ 21)%Z, 0%Z).
Proof.
  split; [vm_compute; reflexivity | split; [vm_compute; reflexivity |]].
  vm_compute. discriminate.
Qed.

(** ** The Chord generator *)

Section Chord.

Variable layout : list (list Z).
Context {M : MathLib}.

(** The test of the [find] callback against the first edge of a group. *)
Definition same_direction (edge first : GridEdge) : bool :=
  (0.999 <? abs (direction_dot edge first))%float.

(** Groups as the grouping rule makes them, given the first edges
    [earlier] of the groups that come before: a group is not empty; each
    of its edges after the first passes the test against the first; and
    none of its edges passes the test against the first edge of an earlier
    group (or it would have joined that group). *)
Fixpoint grouped (earlier : list GridEdge) (lines : list (list GridEdge))
  : Prop :=
  match lines with
  | [] => True
  | [] :: _ => False
  | (first :: members) :: rest =>
      (forall e, In e members -> same_direction e first = true) /\
      (forall e r, In e (first :: members) -> In r earlier ->
                   same_direction e r = false) /\
      grouped (earlier ++ [first]) rest
  end.

Lemma add_to_lines_grouped (lines : list (list GridEdge)) (edge : GridEdge) :
  forall earlier,
    grouped earlier lines ->
    (forall r, In r earlier -> same_direction edge r = false) ->
    grouped earlier (add_to_lines lines edge).
Proof.
  induction lines as [|g rest IH]; intros earlier Hg He; simpl.
  - split; [intros e [] | split; [| exact I]].
    intros e r [<- | []] Hr. now apply He.
  - destruct g as [|first members]; [destruct Hg |].
    destruct Hg as [Hm [Hp Hrest]].
    change (same_line edge (first :: members))
      with (same_direction edge first).
    destruct (same_direction edge first) eqn:E.
    + simpl. repeat split; [| | exact Hrest].
      * intros e Hin. apply in_app_or in Hin as [Hin | [<- | []]];
          [now apply Hm | exact E].
      * intros e r [<- | Hin] Hr; [apply Hp; [now left | exact Hr] |].
        apply in_app_or in Hin as [Hin | [<- | []]].
        -- apply Hp; [now right | exact Hr].
        -- now apply He.
    + simpl. repeat split; [exact Hm | exact Hp |].
      apply IH; [exact Hrest |].
      intros r Hr. apply in_app_or in Hr as [Hr | [<- | []]];
        [now apply He | exact E].
Qed.

Lemma group_lines_grouped (edges : list GridEdge) :
  grouped [] (group_lines edges).
Proof.
  unfold group_lines.
  assert (H : forall lines, grouped [] lines ->
                            grouped [] (fold_left add_to_lines edges lines)).
  { induction edges as [|e edges IH]; intros lines Hl; simpl; [exact Hl |].
    apply IH, add_to_lines_grouped; [exact Hl | intros r []]. }
  apply H. exact I.
Qed.

Lemma add_to_lines_concat (lines : list (list GridEdge)) (edge : GridEdge) :
  Permutation (concat (add_to_lines lines edge)) (edge :: concat lines).
Proof.
  induction lines as [|g rest IH]; simpl; [reflexivity |].
  destruct (same_line edge g); simpl.
  - rewrite <- app_assoc. simpl.
    rewrite <- Permutation_middle. reflexivity.
  - rewrite IH. rewrite <- Permutation_middle. reflexivity.
Qed.

(** Every edge is in exactly one group. *)
Lemma group_lines_concat (edges : list GridEdge) :
  Permutation (concat (group_lines edges)) edges.
Proof.
  unfold group_lines.
  assert (H : forall lines,
    Permutation (concat (fold_left add_to_lines edges lines))
                (concat lines ++ edges)).
  { induction edges as [|e edges IH]; intros lines; simpl.
    - now rewrite app_nil_r.
    - rewrite IH, add_to_lines_concat. simpl.
      apply Permutation_middle. }
  rewrite H. reflexivity.
Qed.

Lemma group_lines_nonempty (edges : list GridEdge) :
  edges <> [] -> group_lines edges <> [].
Proof.
  intros Hne E. pose proof (group_lines_concat edges) as H.
  rewrite E in H. simpl in H. apply Permutation_nil in H. congruence.
Qed.

(** *** Sorting *)

(** [a] has to move behind [b]: the comparator is positive on them. *)
Definition behind {A} (cmp : A -> A -> float) (a b : A) : bool :=
  (0 <? cmp a b)%float.

(** The comparator orders the elements of [l] consistently: it is never
    positive both ways, and "not behind" is transitive.  Decided by
    running the comparator on every pair and triple of [l]. *)
Definition consistent_on {A} (cmp : A -> A -> float) (l : list A) : bool :=
  forallb
    (fun a =>
       forallb
         (fun b =>
            (negb (behind cmp a b) || negb (behind cmp b a))
            && forallb
                 (fun c =>
                    behind cmp a b || behind cmp b c
                    || negb (behind cmp a c))
                 l)
         l)
    l.

Lemma sort_insert_perm {A} (cmp : A -> A -> float) (a : A) (l : list A) :
  Permutation (sort_insert cmp a l) (a :: l).
Proof.
  induction l as [|b l IH]; simpl; [reflexivity |].
  destruct (0 <? cmp a b)%float; [| reflexivity].
  rewrite IH. apply perm_swap.
Qed.

Lemma sort_perm {A} (cmp : A -> A -> float) (l : list A) :
  Permutation (sort cmp l) l.
Proof.
  induction l as [|a l IH]; simpl; [reflexivity |].
  rewrite sort_insert_perm. now constructor.
Qed.

Section Sorted.

Context {A : Type} (cmp : A -> A -> float) (universe : list A).
Hypothesis Hcons : consistent_on cmp universe = true.

Lemma consistent_asym (a b : A) :
  In a universe -> In b universe ->
  behind cmp a b = true -> behind cmp b a = false.
Proof.
  intros Ha Hb Hab. unfold consistent_on in Hcons.
  rewrite forallb_forall in Hcons. specialize (Hcons a Ha).
  rewrite forallb_forall in Hcons. specialize (Hcons b Hb).
  apply andb_prop in Hcons as [H _]. rewrite Hab in H. simpl in H.
  now destruct (behind cmp b a).
Qed.

Lemma consistent_trans (a b c : A) :
  In a universe -> In b universe -> In c universe ->
  behind cmp a b = false -> behind cmp b c = false ->
  behind cmp a c = false.
Proof.
  intros Ha Hb Hc Hab Hbc. unfold consistent_on in Hcons.
  rewrite forallb_forall in Hcons. specialize (Hcons a Ha).
  rewrite forallb_forall in Hcons. specialize (Hcons b Hb).
  apply andb_prop in Hcons as [_ H].
  rewrite forallb_forall in H. specialize (H c Hc).
  rewrite Hab, Hbc in H. simpl in H. now destruct (behind cmp a c).
Qed.

Lemma sort_insert_sorted (a : A) (l : list A) :
  In a universe -> incl l universe ->
  StronglySorted (fun p q => behind cmp p q = false) l ->
  StronglySorted (fun p q => behind cmp p q = false) (sort_insert cmp a l).
Proof.
  intros Ha Hl Hs. induction l as [|b l IH]; simpl.
  - constructor; [constructor | constructor].
  - assert (Hb : In b universe) by (apply Hl; now left).
    assert (Hl' : incl l universe) by (intros z Hz; apply Hl; now right).
    inversion Hs as [|? ? Hs' Hall]; subst.
    fold (behind cmp a b). destruct (behind cmp a b) eqn:E.
    + constructor; [now apply IH |].
      rewrite Forall_forall in *. intros z Hz.
      apply (Permutation_in _ (sort_insert_perm cmp a l)) in Hz.
      destruct Hz as [<- | Hz]; [| now apply Hall].
      now apply consistent_asym.
    + constructor; [exact Hs |]. constructor; [exact E |].
      rewrite Forall_forall in *. intros z Hz.
      apply (consistent_trans a b z); auto.
Qed.

Lemma sort_sorted (l : list A) :
  incl l universe ->
  StronglySorted (fun p q => behind cmp p q = false) (sort cmp l).
Proof.
  induction l as [|a l IH]; intros Hl; simpl; [constructor |].
  apply sort_insert_sorted.
  - apply Hl. now left.
  - intros z Hz. apply (Permutation_in _ (sort_perm cmp l)) in Hz.
    apply Hl. now right.
  - apply IH. intros z Hz. apply Hl. now right.
Qed.

End Sorted.

(** *** The progression *)

Lemma fullProgression_nth (chords : list (list Z)) (i : nat) :
  i < 4 ->
  nth_error (fullProgression chords) i
  = Some (nth (i mod length chords) chords []).
Proof.
  intros Hi. unfold fullProgression.
  destruct i as [|[|[|[|i]]]]; try reflexivity. lia.
Qed.

Definition no_line : LineInfo := mkLine [] 0.

Lemma generateChordSequence_nth (edges : list GridEdge) (i : nat) :
  edges <> [] -> i < 4 ->
  nth_error (sequence (generateChordSequence layout edges)) i
  = Some (mkChord (chord_of layout
            (nth (i mod length (top4 edges)) (top4 edges) no_line))).
Proof.
  intros Hne Hi. unfold generateChordSequence.
  destruct edges as [|e edges]; [congruence |].
  change (length (e :: edges) =? 0) with false. cbv iota. simpl sequence.
  destruct i as [|[|[|[|i]]]]; [| | | | lia]; simpl nth_error;
    rewrite length_map; change (@nil Z) with (chord_of layout no_line);
    rewrite map_nth; reflexivity.
Qed.

Lemma top4_length (edges : list GridEdge) :
  length (top4 edges) = Nat.min 4 (length (group_lines edges)).
Proof.
  unfold top4. rewrite length_firstn.
  rewrite (Permutation_length (sort_perm _ _)), length_map. reflexivity.
Qed.

Lemma top4_nth (edges : list GridEdge) (j : nat) :
  j < 4 ->
  nth j (top4 edges) no_line
  = nth j (sort by_length_desc (map line_info (group_lines edges))) no_line.
Proof.
  intros Hj. unfold top4.
  set (l := sort by_length_desc (map line_info (group_lines edges))).
  rewrite <- (firstn_skipn 4 l) at 2.
  destruct (Nat.lt_ge_cases j (length (firstn 4 l))) as [H | H].
  - now rewrite app_nth1.
  - rewrite nth_overflow by exact H.
    rewrite length_firstn in H.
    assert (Hl : length l <= j) by lia.
    rewrite firstn_skipn. now rewrite nth_overflow.
Qed.

(** C5.  For every edge set that is not empty, and on whose lines the
    comparator is consistent (as it is on any numbers but [NaN]):
    - the edges are split into groups by the rule "join the first group
      whose first edge has a unit direction with absolute dot product
      above 0.999, else start a new group";
    - the lines are ranked by total length, longest first (no line is
      behind a later one), and the first four are kept;
    - slot [i] of the four chord slots holds the chord of the line of rank
      [i mod k], with [k] the smaller of 4 and the number of groups;
    - with exactly two groups of total lengths 100 and 50, in either
      order, the progression is long, short, long, short. *)
Theorem generateChordSequence_progression (edges : list GridEdge) :
  edges <> [] ->
  consistent_on by_length_desc (map line_info (group_lines edges)) = true ->
  let lines := group_lines edges in
  let ranked := sort by_length_desc (map line_info lines) in
  let k := Nat.min 4 (length lines) in
  let chord line := mkChord (chord_of layout line) in
  (grouped [] lines /\ Permutation (concat lines) edges)
  /\ (Permutation ranked (map line_info lines) /\
      StronglySorted (fun a b => behind by_length_desc a b = false) ranked /\
      top4 edges = firstn 4 ranked)
  /\ (0 < k /\
      length (sequence (generateChordSequence layout edges)) = 4 /\
      forall i, i < 4 ->
        nth_error (sequence (generateChordSequence layout edges)) i
        = Some (chord (nth (i mod k) ranked no_line)))
  /\ (forall long short,
        totalLength long = 100%float -> totalLength short = 50%float ->
        map line_info lines = [long; short]
        \/ map line_info lines = [short; long] ->
        sequence (generateChordSequence layout edges)
        = [chord long; chord short; chord long; chord short]).
Proof.
  intros Hne Hcons lines ranked k chord.
  assert (Hlines : lines <> []) by now apply group_lines_nonempty.
  assert (Hk : 0 < k).
  { unfold k. destruct lines; [congruence | simpl; lia]. }
  split; [split; [apply group_lines_grouped | apply group_lines_concat] |].
  split; [split; [apply sort_perm | split; [| reflexivity]] |].
  { apply (sort_sorted by_length_desc _ Hcons). apply incl_refl. }
  split.
  - split; [exact Hk | split].
    + unfold generateChordSequence.
      destruct edges; [congruence | reflexivity].
    + intros i Hi. rewrite generateChordSequence_nth by assumption.
      rewrite top4_length. fold lines. fold k. unfold chord. do 3 f_equal.
      apply top4_nth.
      assert (i mod k < k) by (apply Nat.mod_upper_bound; lia).
      unfold k in *. lia.
  - intros long short Hlong Hshort Hcase.
    unfold generateChordSequence.
    destruct edges as [|e0 edges0]; [congruence |].
    change (length (e0 :: edges0) =? 0) with false. cbv iota.
    unfold top4. fold lines. simpl sequence.
    destruct Hcase as [-> | ->]; simpl sort;
      unfold by_length_desc; rewrite Hlong, Hshort.
    + replace (0 <? 50 - 100)%float with false by reflexivity. reflexivity.
    + replace (0 <? 100 - 50)%float with true by reflexivity. reflexivity.
Qed.

(** C9.  [generateChordSequence] on the empty edge set returns
    [{ sequence: [], nodeOrder: [] }]: no chord, no pitch text, no throw. *)
Theorem generateChordSequence_empty :
  generateChordSequence layout [] = mkGenerated [] [].
Proof. reflexivity. Qed.

End Chord.

(** ** The grid: gesture decomposition and the edit handlers *)

Import Grid.

(** The tables of the grid are large closed terms: [simpl] leaves them
    folded. *)
Arguments createGrid : simpl never.
Arguments edges : simpl never.
Arguments allNodes : simpl never.
Arguments nodeMap : simpl never.
Arguments baseEdgeKeys : simpl never.
Arguments nodeCoordinateMap : simpl never.
Arguments directionInfoMap : simpl never.

Section GridProperties.

Context {M : MathLib}.

(** [Math.round(totalLength / direction.length)] *)
Definition steps_of (from to : GridNode) (direction : DirectionInfo) : Z :=
  Math_round
    (Math_hypot (x to - x from) (y to - y from) / length_ direction).

(** [Math.abs(steps - stepsFloat) > 1e-6] *)
Definition out_of_tolerance (from to : GridNode) (direction : DirectionInfo)
  : bool :=
  (0.000001 <?
   abs (float_of_Z (steps_of from to direction)
        - Math_hypot (x to - x from) (y to - y from) / length_ direction))%float.

(** The grid node one step of [direction] away from [current], by
    coordinate. *)
Definition next_node (direction : DirectionInfo) (current : GridNode)
  : option GridNode :=
  map_get nodeCoordinateMap
    (coordinateKey (x current + dx direction) (y current + dy direction)).

(** The walk cannot leave [current]: there is no node one step away, or
    the segment to it is not an edge of the base grid. *)
Definition step_fails (direction : DirectionInfo) (current : GridNode) : Prop :=
  next_node direction current = None
  \/ exists nextNode,
       next_node direction current = Some nextNode /\
       set_has baseEdgeKeys (createEdgeKey current nextNode) = false.

(** A segment of the walk: it ends at the grid node one step from where
    it starts, carries the canonical key of its two ends, and that key is
    one of the base grid. *)
Definition unit_segment (direction : DirectionInfo) (e : GridEdge) : Prop :=
  next_node direction (from e) = Some (to e) /\
  key e = createEdgeKey (from e) (to e) /\
  set_has baseEdgeKeys (key e) = true.

(** [es] leads from [a] to [b], each edge starting where the one before
    it ends. *)
Fixpoint linked (a : GridNode) (es : list GridEdge) (b : GridNode) : Prop :=
  match es with
  | [] => a = b
  | e :: es' => from e = a /\ linked (to e) es' b
  end.

Lemma walk_S (direction : DirectionInfo) (n : nat) (current : GridNode)
    (segments : list GridEdge) :
  walk direction (S n) current segments =
  match next_node direction current with
  | None => None
  | Some nextNode =>
      if negb (set_has baseEdgeKeys (createEdgeKey current nextNode))
      then None
      else walk direction n nextNode
             (segments ++
              [mkEdge (createEdgeKey current nextNode) current nextNode])
  end.
Proof. reflexivity. Qed.

Lemma walk_Some (direction : DirectionInfo) (n : nat) :
  forall current segments segments' current',
    walk direction n current segments = Some (segments', current') ->
    exists added,
      segments' = segments ++ added /\
      length added = n /\
      linked current added current' /\
      Forall (unit_segment direction) added.
Proof.
  induction n as [|n IH]; intros current segments segments' current' H.
  - injection H as <- <-. exists []. rewrite app_nil_r.
    repeat split. constructor.
  - rewrite walk_S in H.
    destruct (next_node direction current) as [nextNode|] eqn:En;
      [| discriminate].
    destruct (set_has baseEdgeKeys (createEdgeKey current nextNode)) eqn:Ek;
      [| discriminate].
    simpl in H. apply IH in H as [added [-> [Hl [Hlink Hu]]]].
    exists (mkEdge (createEdgeKey current nextNode) current nextNode :: added).
    rewrite <- app_assoc. repeat split; simpl; try congruence.
    constructor; [| exact Hu].
    unfold unit_segment; cbn [from to key]; repeat split; assumption.
Qed.

Lemma walk_None (direction : DirectionInfo) (n : nat) :
  forall current segments,
    walk direction n current segments = None <->
    exists i segments_i current_i,
      i < n /\
      walk direction i current segments = Some (segments_i, current_i) /\
      step_fails direction current_i.
Proof.
  induction n as [|n IH]; intros current segments.
  - simpl. split; [discriminate | intros [i [? [? [Hi _]]]]; lia].
  - rewrite walk_S. split.
    + intros H.
      destruct (next_node direction current) as [nextNode|] eqn:En.
      * destruct (set_has baseEdgeKeys (createEdgeKey current nextNode))
          eqn:Ek; simpl in H.
        -- apply IH in H as [i [si [ci [Hi [Hw Hf]]]]].
           exists (S i), si, ci. split; [lia |]. split; [| exact Hf].
           rewrite walk_S, En, Ek. exact Hw.
        -- exists 0, segments, current. split; [lia |].
           split; [reflexivity |]. right. exists nextNode.
           split; [exact En | exact Ek].
      * exists 0, segments, current. split; [lia |].
        split; [reflexivity |]. left. exact En.
    + intros [i [si [ci [Hi [Hw Hf]]]]]. destruct i as [|i].
      * injection Hw as <- <-.
        destruct Hf as [-> | [nextNode [-> ->]]]; reflexivity.
      * rewrite walk_S in Hw.
        destruct (next_node direction current) as [nextNode|];
          [| reflexivity].
        destruct (set_has baseEdgeKeys (createEdgeKey current nextNode));
          [| reflexivity].
        simpl in *. apply IH. exists i, si, ci.
        split; [lia |]. split; assumption.
Qed.

(** Why [getEdgeSegments] returns [null]. *)
Inductive Rejection (from to : GridNode) : Prop :=
| zero_length :
    directionKeyFromNodes from to = None ->
    Rejection from to
| unknown_direction directionKey :
    directionKeyFromNodes from to = Some directionKey ->
    map_get directionInfoMap directionKey = None ->
    Rejection from to
| not_whole_steps directionKey direction :
    directionKeyFromNodes from to = Some directionKey ->
    map_get directionInfoMap directionKey = Some direction ->
    (steps_of from to direction <= 0)%Z
    \/ out_of_tolerance from to direction = true ->
    Rejection from to
| walk_blocked directionKey direction i segments current :
    directionKeyFromNodes from to = Some directionKey ->
    map_get directionInfoMap directionKey = Some direction ->
    i < Z.to_nat (steps_of from to direction) ->
    walk direction i from [] = Some (segments, current) ->
    step_fails direction current ->
    Rejection from to
| wrong_end directionKey direction segments current :
    directionKeyFromNodes from to = Some directionKey ->
    map_get directionInfoMap directionKey = Some direction ->
    walk direction (Z.to_nat (steps_of from to direction)) from []
      = Some (segments, current) ->
    id current <> id to ->
    Rejection from to.

Lemma getEdgeSegments_unfold (from to : GridNode) :
  getEdgeSegments from to =
  match directionKeyFromNodes from to with
  | None => None
  | Some directionKey =>
      match map_get directionInfoMap directionKey with
      | None => None
      | Some direction =>
          if (steps_of from to direction <=? 0)%Z
             || out_of_tolerance from to direction
          then None
          else
            match walk direction (Z.to_nat (steps_of from to direction))
                    from [] with
            | None => None
            | Some (segments, current) =>
                if negb (String.eqb (id current) (id to)) then None
                else Some segments
            end
      end
  end.
Proof. reflexivity. Qed.

Lemma getEdgeSegments_None (from to : GridNode) :
  getEdgeSegments from to = None <-> Rejection from to.
Proof.
  rewrite getEdgeSegments_unfold. split.
  - intros H.
    destruct (directionKeyFromNodes from to) as [k|] eqn:Ek;
      [| apply zero_length; exact Ek].
    destruct (map_get directionInfoMap k) as [d|] eqn:Ed;
      [| apply (unknown_direction from to k); assumption].
    destruct ((steps_of from to d <=? 0)%Z || out_of_tolerance from to d)
      eqn:Es.
    { apply (not_whole_steps from to k d Ek Ed).
      apply orb_prop in Es as [Es | Es]; [left; lia | right; exact Es]. }
    destruct (walk d (Z.to_nat (steps_of from to d)) from [])
      as [[segs cur]|] eqn:Ew.
    + destruct (String.eqb_spec (id cur) (id to)) as [E | E];
        [discriminate |].
      apply (wrong_end from to k d segs cur); assumption.
    + apply walk_None in Ew as [i [si [ci [Hi [Hw Hf]]]]].
      apply (walk_blocked from to k d i si ci); assumption.
  - intros [Ek | k Ek Ed | k d Ek Ed Hs | k d i si ci Ek Ed Hi Hw Hf
            | k d segs cur Ek Ed Hw Hid]; rewrite Ek; try reflexivity;
      rewrite Ed; try reflexivity.
    + replace ((steps_of from to d <=? 0)%Z || out_of_tolerance from to d)
        with true; [reflexivity |].
      symmetry. apply orb_true_iff.
      destruct Hs as [Hs | Hs]; [left; lia | right; exact Hs].
    + destruct (_ || _); [reflexivity |].
      replace (walk d (Z.to_nat (steps_of from to d)) from []) with
        (@None (list GridEdge * GridNode)); [reflexivity |].
      symmetry. apply walk_None. exists i, si, ci.
      split; [exact Hi |]. split; assumption.
    + destruct (_ || _); [reflexivity |]. rewrite Hw.
      destruct (String.eqb_spec (id cur) (id to)); [contradiction |].
      reflexivity.
Qed.

Lemma getEdgeSegments_Some (from to : GridNode) (segments : list GridEdge) :
  getEdgeSegments from to = Some segments ->
  exists directionKey direction current,
    directionKeyFromNodes from to = Some directionKey /\
    map_get directionInfoMap directionKey = Some direction /\
    (0 < steps_of from to direction)%Z /\
    out_of_tolerance from to direction = false /\
    length segments = Z.to_nat (steps_of from to direction) /\
    linked from segments current /\
    id current = id to /\
    Forall (unit_segment direction) segments.
Proof.
  rewrite getEdgeSegments_unfold. intros H.
  destruct (directionKeyFromNodes from to) as [k|] eqn:Ek; [| discriminate].
  destruct (map_get directionInfoMap k) as [d|] eqn:Ed; [| discriminate].
  destruct ((steps_of from to d <=? 0)%Z || out_of_tolerance from to d)
    eqn:Es; [discriminate |].
  apply orb_false_elim in Es as [Es1 Es2].
  destruct (walk d (Z.to_nat (steps_of from to d)) from [])
    as [[segs cur]|] eqn:Ew; [| discriminate].
  destruct (String.eqb_spec (id cur) (id to)) as [E | E]; [| discriminate].
  injection H as <-.
  apply walk_Some in Ew as [added [-> [Hl [Hlink Hu]]]].
  exists k, d, cur. cbn [app].
  split; [reflexivity |]. split; [exact Ed |].
  split; [lia |]. split; [exact Es2 |]. split; [exact Hl |].
  split; [exact Hlink |]. split; [exact E | exact Hu].
Qed.

(** Every node of the grid is at distance zero from itself. *)
Lemma allNodes_self_difference (n : GridNode) :
  In n allNodes -> (x n - x n = 0 /\ y n - y n = 0)%float.
Proof.
  intros H. vm_compute in H.
  repeat (destruct H as [<- | H]; [split; reflexivity |]).
  destruct H.
Qed.

(** A gesture from a grid node to itself has length zero. *)
Lemma getEdgeSegments_self (n : GridNode) :
  In n allNodes -> getEdgeSegments n n = None.
Proof.
  intros Hn. apply getEdgeSegments_None, zero_length.
  unfold directionKeyFromNodes, createDirectionKey.
  destruct (allNodes_self_difference n Hn) as [-> ->].
  rewrite Math_hypot_zero. reflexivity.
Qed.

(** ** The tables of the component, read back on the grid *)

(** A map filled by [set(f a, a)] for the elements of a list, in order:
    what it holds under a key is an element of the list with that key (the
    last one), and every key of an element is present. *)
Lemma fold_map_set_get {V} (f : V -> string) (l : list V) :
  forall (m : JMap V) (k : string) (v : V),
    map_get (fold_left (fun m a => map_set m (f a) a) l m) k = Some v ->
    (In v l /\ f v = k) \/ map_get m k = Some v.
Proof.
  induction l as [|a l IH]; intros m k v H; cbn [fold_left] in H;
    [now right |].
  apply IH in H as [[Hin Hk] | H]; [left; split; [now right | exact Hk] |].
  destruct (string_dec k (f a)) as [-> | Hne].
  - rewrite map_get_set_same in H. injection H as <-.
    left. split; [now left | reflexivity].
  - rewrite map_get_set_other in H by exact Hne. now right.
Qed.

Lemma fold_map_set_has {V} (f : V -> string) (l : list V) :
  forall (m : JMap V) (k : string),
    map_get m k <> None \/ (exists a, In a l /\ f a = k) ->
    map_get (fold_left (fun m a => map_set m (f a) a) l m) k <> None.
Proof.
  induction l as [|a l IH]; intros m k H; cbn [fold_left].
  - destruct H as [H | [a [[] _]]]. exact H.
  - apply IH. destruct H as [H | [b [[<- | Hb] Hk]]].
    + left. destruct (string_dec k (f a)) as [-> | Hne].
      * rewrite map_get_set_same. discriminate.
      * rewrite map_get_set_other by exact Hne. exact H.
    + left. rewrite <- Hk, map_get_set_same. discriminate.
    + right. exists b. split; assumption.
Qed.

(** What [nodeCoordinateMap] holds under a key is a node of the grid with
    that coordinate key. *)
Lemma nodeCoordinateMap_In (k : string) (n : GridNode) :
  map_get nodeCoordinateMap k = Some n ->
  In n allNodes /\ coordinateKey (x n) (y n) = k.
Proof.
  unfold nodeCoordinateMap. intros H.
  apply (fold_map_set_get (fun node => coordinateKey (x node) (y node)))
    in H as [H | H]; [exact H | discriminate H].
Qed.

(** Every node of the grid has its coordinate key in [nodeCoordinateMap]. *)
Lemma nodeCoordinateMap_has (n : GridNode) :
  In n allNodes ->
  exists n', map_get nodeCoordinateMap (coordinateKey (x n) (y n)) = Some n'.
Proof.
  intros Hn. unfold nodeCoordinateMap.
  destruct (map_get _ _) as [n'|] eqn:E; [now exists n' |].
  exfalso. revert E.
  apply (fold_map_set_has (fun node => coordinateKey (x node) (y node))).
  right. exists n. split; [exact Hn | reflexivity].
Qed.

(** [baseEdgeKeys] holds the keys of the edges of the grid, and nothing
    else. *)
Lemma baseEdgeKeys_spec (k : string) :
  set_has baseEdgeKeys k = true <-> exists e, In e edges /\ key e = k.
Proof.
  unfold baseEdgeKeys. rewrite set_has_In, fold_set_add_In, in_map_iff.
  split.
  - intros [[] | [e [Hk He]]]. exists e. split; assumption.
  - intros [e [He Hk]]. right. exists e. split; assumption.
Qed.

(** [if (key && !map.has(key)) map.set(key, info)] *)
Definition remember_direction (map : JMap DirectionInfo)
    (k : option string) (info : DirectionInfo) : JMap DirectionInfo :=
  match k with
  | Some k => if map_has map k then map else map_set map k info
  | None => map
  end.

Lemma directionInfoMap_step_unfold (map : JMap DirectionInfo) (e : GridEdge) :
  let dx := (x (to e) - x (from e))%float in
  let dy := (y (to e) - y (from e))%float in
  directionInfoMap_step map e =
  remember_direction
    (remember_direction map (createDirectionKey dx dy)
       (mkDirection dx dy (Math_hypot dx dy)))
    (createDirectionKey (- dx) (- dy))
    (mkDirection (- dx) (- dy) (Math_hypot dx dy)).
Proof. reflexivity. Qed.

Lemma remember_direction_get (map : JMap DirectionInfo) (ko : option string)
    (info : DirectionInfo) (k : string) (d : DirectionInfo) :
  map_get (remember_direction map ko info) k = Some d ->
  map_get map k = Some d \/ (ko = Some k /\ d = info).
Proof.
  unfold remember_direction. destruct ko as [j|]; [| now left].
  destruct (map_has map j); [now left |].
  destruct (string_dec k j) as [-> | Hne].
  - rewrite map_get_set_same. intros [= <-]. right. split; reflexivity.
  - rewrite map_get_set_other by exact Hne. now left.
Qed.

(** [direction] is the vector of an edge of the grid, or of its reverse,
    with the length of that edge, and [k] is its direction key. *)
Definition base_direction (direction : DirectionInfo) (k : string) : Prop :=
  exists e,
    In e edges /\
    (let dx := (x (to e) - x (from e))%float in
     let dy := (y (to e) - y (from e))%float in
     (createDirectionKey dx dy = Some k /\
      direction = mkDirection dx dy (Math_hypot dx dy))
     \/ (createDirectionKey (- dx) (- dy) = Some k /\
         direction = mkDirection (- dx) (- dy) (Math_hypot dx dy))).

Lemma directionInfoMap_entries (k : string) (d : DirectionInfo) :
  map_get directionInfoMap k = Some d -> base_direction d k.
Proof.
  unfold directionInfoMap.
  assert (Hall : forall es map,
            (forall e, In e es -> In e edges) ->
            (forall k d, map_get map k = Some d -> base_direction d k) ->
            forall k d,
              map_get (fold_left directionInfoMap_step es map) k = Some d ->
              base_direction d k).
  { induction es as [|e es IH]; intros map Hes Hmap k' d' H;
      cbn [fold_left] in H; [exact (Hmap k' d' H) |].
    revert k' d' H. apply IH; [intros e0 He0; apply Hes; now right |].
    intros k1 d1 H1. rewrite directionInfoMap_step_unfold in H1.
    apply remember_direction_get in H1 as [H1 | [Hk ->]];
      [apply remember_direction_get in H1 as [H1 | [Hk ->]] |].
    - exact (Hmap k1 d1 H1).
    - exists e. split; [apply Hes; now left |]. left.
      split; [exact Hk | reflexivity].
    - exists e. split; [apply Hes; now left |]. right.
      split; [exact Hk | reflexivity]. }
  apply (Hall edges []); [intros e He; exact He |].
  intros k0 d0 H0. discriminate H0.
Qed.

(** A segment in terms of the grid: it ends at a node of the grid whose
    coordinate key is that of the point one step from its start, carries
    the canonical key of its two ends, and has the key of an edge of the
    grid. *)
Definition grid_segment (direction : DirectionInfo) (e : GridEdge) : Prop :=
  In (to e) allNodes /\
  coordinateKey (x (to e)) (y (to e))
    = coordinateKey (x (from e) + dx direction) (y (from e) + dy direction) /\
  key e = createEdgeKey (from e) (to e) /\
  exists b, In b edges /\ key b = key e.

Lemma unit_segment_grid (direction : DirectionInfo) (e : GridEdge) :
  unit_segment direction e -> grid_segment direction e.
Proof.
  intros [Hn [Hk Hb]]. unfold next_node in Hn.
  apply nodeCoordinateMap_In in Hn as [Hin Hc].
  apply baseEdgeKeys_spec in Hb.
  split; [exact Hin |]. split; [exact Hc |]. split; [exact Hk | exact Hb].
Qed.

Lemma linked_end (es : list GridEdge) :
  forall a b, linked a es b -> es <> [] -> exists e, In e es /\ to e = b.
Proof.
  induction es as [|e es IH]; intros a b H Hne; [congruence |].
  destruct H as [_ H]. destruct es as [|e' es'].
  - exists e. split; [now left | exact H].
  - destruct (IH _ _ H) as [e0 [Hin Hto]]; [discriminate |].
    exists e0. split; [right; exact Hin | exact Hto].
Qed.

Lemma same_id_same_element {A} (f : A -> string) (l : list A) :
  NoDup (map f l) ->
  forall a b, In a l -> In b l -> f a = f b -> a = b.
Proof.
  induction l as [|c l IH]; cbn [map]; intros Hnd a b Ha Hb E;
    [destruct Ha |].
  apply NoDup_cons_iff in Hnd as [Hfresh Hnd].
  destruct Ha as [-> | Ha], Hb as [-> | Hb].
  - reflexivity.
  - exfalso. apply Hfresh. rewrite E. now apply in_map.
  - exfalso. apply Hfresh. rewrite <- E. now apply in_map.
  - now apply IH.
Qed.

(** The nodes of the grid have distinct ids. *)
Lemma allNodes_same_id (a b : GridNode) :
  In a allNodes -> In b allNodes -> id a = id b -> a = b.
Proof.
  apply (same_id_same_element id).
  assert (H : nodup string_dec (map id allNodes) = map id allNodes)
    by (vm_compute; reflexivity).
  rewrite <- H. apply NoDup_nodup.
Qed.

Lemma getEdgeSegments_Some_grid (from to : GridNode)
    (segments : list GridEdge) :
  getEdgeSegments from to = Some segments ->
  exists directionKey direction current,
    directionKeyFromNodes from to = Some directionKey /\
    map_get directionInfoMap directionKey = Some direction /\
    base_direction direction directionKey /\
    (0 < steps_of from to direction)%Z /\
    out_of_tolerance from to direction = false /\
    length segments = Z.to_nat (steps_of from to direction) /\
    linked from segments current /\
    id current = id to /\
    (In to allNodes -> current = to) /\
    Forall (unit_segment direction) segments /\
    Forall (grid_segment direction) segments.
Proof.
  intros H.
  destruct (getEdgeSegments_Some _ _ _ H)
    as [k [d [cur [Hk [Hd [Hs [Ht [Hl [Hlink [Hid Hu]]]]]]]]]].
  exists k, d, cur.
  split; [exact Hk |]. split; [exact Hd |].
  split; [exact (directionInfoMap_entries _ _ Hd) |].
  split; [exact Hs |]. split; [exact Ht |]. split; [exact Hl |].
  split; [exact Hlink |]. split; [exact Hid |].
  assert (Hg : Forall (grid_segment d) segments).
  { apply (Forall_impl _ (unit_segment_grid d)). exact Hu. }
  split; [| split; [exact Hu | exact Hg]].
  intros Hto. destruct (linked_end _ _ _ Hlink) as [e [He Hte]].
  { destruct segments; [cbn [length] in Hl; lia | discriminate]. }
  apply allNodes_same_id; [| exact Hto | exact Hid].
  rewrite <- Hte. rewrite Forall_forall in Hg. exact (proj1 (Hg e He)).
Qed.

End GridProperties.

(** ** The gestures of the grid, one by one

    The grid as a lattice: the rows are one unit apart and the nodes of a
    row two units, each row starting [row_offset] units to the right of
    the longest one.  Two nodes are in line when they are in the same row,
    or as many rows apart as units across; the nodes between them are then
    nodes of the grid, [k] steps of [(2, 0)] or [(1, 1)] (up to sign)
    apart. *)

Definition row_offset (r : Z) : Z :=
  Z.of_nat (MAX_COUNT - nth (Z.to_nat r) ROW_COUNTS 0).

Definition lattice_x (n : GridNode) : Z := (2 * col n + row_offset (row n))%Z.

(** The node of the grid at a point of the lattice. *)
Definition node_at (X Y : Z) : GridNode :=
  Reference.node
    (SequenceGenerators.node_id (Z.to_nat Y)
       (Z.to_nat ((X - row_offset Y) / 2))).

(** The number of steps from [a] to [b] and the step, when they are in
    line. *)
Definition lattice_steps (a b : GridNode) : option (nat * (Z * Z)) :=
  let dX := (lattice_x b - lattice_x a)%Z in
  let dY := (row b - row a)%Z in
  if ((dY =? 0) && negb (dX =? 0))%Z
  then Some (Z.to_nat (Z.abs dX / 2), (2 * Z.sgn dX, 0))%Z
  else if ((Z.abs dX =? Z.abs dY) && negb (dY =? 0))%Z
  then Some (Z.to_nat (Z.abs dY), (Z.sgn dX, Z.sgn dY))
  else None.

(** The edges that join [a] and the nodes of [rest], one after the
    other. *)
Fixpoint unit_edges (a : GridNode) (rest : list GridNode) : list GridEdge :=
  match rest with
  | [] => []
  | b :: rest' => mkEdge (createEdgeKey a b) a b :: unit_edges b rest'
  end.

(** What a gesture from [a] to [b] should give: nothing unless the two
    are in line, and then the [k] unit edges of the straight line from [a]
    to [b], in order. *)
Definition straight_segments (a b : GridNode) : option (list GridEdge) :=
  match lattice_steps a b with
  | Some (k, (sx, sy)) =>
      Some (unit_edges a
              (map (fun i => node_at (lattice_x a + Z.of_nat i * sx)
                                     (row a + Z.of_nat i * sy))
                   (seq 1 k)))
  | None => None
  end.

Lemma unit_edges_length (rest : list GridNode) :
  forall a, length (unit_edges a rest) = length rest.
Proof.
  induction rest as [|b rest IH]; intros a; cbn [unit_edges length];
    [reflexivity | now rewrite IH].
Qed.

(** Two nodes [k] steps apart are joined by [k] unit edges. *)
Lemma straight_segments_length (a b : GridNode) :
  match lattice_steps a b with
  | Some (k, _) =>
      exists segments,
        straight_segments a b = Some segments /\ length segments = k
  | None => straight_segments a b = None
  end.
Proof.
  unfold straight_segments.
  destruct (lattice_steps a b) as [[k [sx sy]]|]; [| reflexivity].
  eexists. split; [reflexivity |].
  rewrite unit_edges_length, length_map, length_seq. reflexivity.
Qed.

(** [getEdgeSegments] with the three tables it reads as arguments, so
    that a run over all pairs of nodes builds them once. *)
Section TablesAsArguments.

Context {M : MathLib}.
Variable directions : JMap DirectionInfo.
Variable coordinates : JMap GridNode.
Variable keys : JSet.

Fixpoint walk_in (direction : DirectionInfo) (n : nat) (current : GridNode)
    (segments : list GridEdge) : option (list GridEdge * GridNode) :=
  match n with
  | O => Some (segments, current)
  | S n' =>
      match map_get coordinates
              (coordinateKey (x current + dx direction)
                             (y current + dy direction)) with
      | None => None
      | Some nextNode =>
          let segmentKey := createEdgeKey current nextNode in
          if negb (set_has keys segmentKey) then None
          else walk_in direction n' nextNode
                 (segments ++ [mkEdge segmentKey current nextNode])
      end
  end.

Definition getEdgeSegments_in (from to : GridNode)
  : option (list GridEdge) :=
  match directionKeyFromNodes from to with
  | None => None
  | Some directionKey =>
      match map_get directions directionKey with
      | None => None
      | Some direction =>
          if (steps_of from to direction <=? 0)%Z
             || out_of_tolerance from to direction
          then None
          else
            match walk_in direction (Z.to_nat (steps_of from to direction))
                    from [] with
            | None => None
            | Some (segments, current) =>
                if negb (String.eqb (id current) (id to)) then None
                else Some segments
            end
      end
  end.

End TablesAsArguments.

Lemma walk_in_tables {M : MathLib} (direction : DirectionInfo) (n : nat) :
  forall current segments,
    walk direction n current segments
    = walk_in nodeCoordinateMap baseEdgeKeys direction n current segments.
Proof.
  induction n as [|n IH]; intros current segments; [reflexivity |].
  rewrite walk_S. unfold next_node. cbn [walk_in].
  destruct (map_get nodeCoordinateMap _); [| reflexivity].
  destruct (negb _); [reflexivity | apply IH].
Qed.

Lemma getEdgeSegments_in_tables {M : MathLib} (from to : GridNode) :
  getEdgeSegments from to
  = getEdgeSegments_in directionInfoMap nodeCoordinateMap baseEdgeKeys
      from to.
Proof.
  rewrite getEdgeSegments_unfold. unfold getEdgeSegments_in.
  destruct (directionKeyFromNodes from to) as [k|]; [| reflexivity].
  destruct (map_get directionInfoMap k) as [d|]; [| reflexivity].
  destruct (_ || _); [reflexivity |].
  rewrite walk_in_tables. reflexivity.
Qed.

(** Equality of nodes and edges, field by field; two doubles are equal
    when they are the same double. *)
Definition node_eqb (a b : GridNode) : bool :=
  String.eqb (id a) (id b) && PrimFloat.Leibniz.eqb (x a) (x b)
  && PrimFloat.Leibniz.eqb (y a) (y b)
  && Z.eqb (row a) (row b) && Z.eqb (col a) (col b).

Definition edge_eqb (a b : GridEdge) : bool :=
  String.eqb (key a) (key b) && node_eqb (from a) (from b)
  && node_eqb (to a) (to b).

Fixpoint edges_eqb (l1 l2 : list GridEdge) : bool :=
  match l1, l2 with
  | [], [] => true
  | a :: l1', b :: l2' => edge_eqb a b && edges_eqb l1' l2'
  | _, _ => false
  end.

Definition result_eqb (r1 r2 : option (list GridEdge)) : bool :=
  match r1, r2 with
  | None, None => true
  | Some l1, Some l2 => edges_eqb l1 l2
  | _, _ => false
  end.

Lemma node_eqb_eq (a b : GridNode) : node_eqb a b = true -> a = b.
Proof.
  unfold node_eqb. intros H.
  apply andb_prop in H as [H Hc]. apply andb_prop in H as [H Hr].
  apply andb_prop in H as [H Hy]. apply andb_prop in H as [Hi Hx].
  destruct a, b; cbn [id x y row col] in *.
  apply String.eqb_eq in Hi. apply FloatAxioms.Leibniz.eqb_spec in Hx, Hy.
  apply Z.eqb_eq in Hr, Hc. congruence.
Qed.

Lemma edge_eqb_eq (a b : GridEdge) : edge_eqb a b = true -> a = b.
Proof.
  unfold edge_eqb. intros H.
  apply andb_prop in H as [H Ht]. apply andb_prop in H as [Hk Hf].
  destruct a, b; cbn [key from to] in *.
  apply String.eqb_eq in Hk. apply node_eqb_eq in Hf, Ht. congruence.
Qed.

Lemma edges_eqb_eq (l1 : list GridEdge) :
  forall l2, edges_eqb l1 l2 = true -> l1 = l2.
Proof.
  induction l1 as [|a l1 IH]; intros [|b l2] H; try discriminate H;
    [reflexivity |].
  cbn [edges_eqb] in H. apply andb_prop in H as [H1 H2].
  apply edge_eqb_eq in H1. apply IH in H2. congruence.
Qed.

Lemma result_eqb_eq (r1 r2 : option (list GridEdge)) :
  result_eqb r1 r2 = true -> r1 = r2.
Proof.
  destruct r1 as [l1|], r2 as [l2|]; cbn [result_eqb]; intros H;
    try discriminate H; [| reflexivity].
  apply edges_eqb_eq in H. congruence.
Qed.

(** With these tables, every gesture between two nodes of the grid gives
    what the lattice says. *)
Definition agree_on_grid {M : MathLib} (directions : JMap DirectionInfo)
    (coordinates : JMap GridNode) (keys : JSet) : bool :=
  forallb
    (fun a =>
       forallb
         (fun b =>
            result_eqb (getEdgeSegments_in directions coordinates keys a b)
                       (straight_segments a b))
         allNodes)
    allNodes.

Lemma agree_on_grid_spec {M : MathLib} (directions : JMap DirectionInfo)
    (coordinates : JMap GridNode) (keys : JSet) :
  agree_on_grid directions coordinates keys = true ->
  forall a b, In a allNodes -> In b allNodes ->
    getEdgeSegments_in directions coordinates keys a b
    = straight_segments a b.
Proof.
  unfold agree_on_grid. intros H a b Ha Hb.
  rewrite forallb_forall in H. specialize (H a Ha).
  rewrite forallb_forall in H. apply result_eqb_eq, H, Hb.
Qed.

(** The 37 * 37 gestures of the grid, run with the reference numerics. *)
Lemma reference_agrees_on_grid :
  agree_on_grid (M := Reference.lib) (directionInfoMap (M := Reference.lib))
    (nodeCoordinateMap (M := Reference.lib)) baseEdgeKeys = true.
Proof. vm_compute. reflexivity. Qed.

(** C4.  [getEdgeSegments(from, to)] returns [null] exactly in these
    cases: the gesture has length zero (as it has from a grid node to
    itself); its rounded unit direction is not in the direction catalogue;
    the number of steps is not positive or the distance is not a whole
    number of steps within 1e-6; at some step of the walk there is no grid
    node at the next coordinate, or the segment to it is not a base edge;
    or the walk ends at a node other than [to].  Otherwise, for a gesture
    of [k] steps along the vector of an edge of the grid, it returns
    exactly [k] edges in order, the first starting at [from], each
    starting where the one before ends, the last ending at [to], each
    ending at the node of the grid one step along the direction, with its
    canonical key, the key of an edge of the grid.  The tables the walk
    reads hold the grid: every node under its coordinate key, the keys of
    all edges.  On the grid itself, run with the reference numerics, a
    gesture between two nodes is accepted exactly when the two are in line
    on the lattice, [k] steps apart, and gives the [k] unit edges of the
    straight line between them, in order. *)
Theorem getEdgeSegments_spec :
  (forall (M : MathLib) (from to : GridNode),
     (getEdgeSegments from to = None <-> Rejection from to)
     /\ (forall segments,
           getEdgeSegments from to = Some segments ->
           exists directionKey direction current,
             directionKeyFromNodes from to = Some directionKey /\
             map_get directionInfoMap directionKey = Some direction /\
             base_direction direction directionKey /\
             (0 < steps_of from to direction)%Z /\
             out_of_tolerance from to direction = false /\
             length segments = Z.to_nat (steps_of from to direction) /\
             linked from segments current /\
             id current = id to /\
             (In to allNodes -> current = to) /\
             Forall (unit_segment direction) segments /\
             Forall (grid_segment direction) segments))
  /\ (forall (M : MathLib) (n : GridNode),
        In n allNodes -> getEdgeSegments n n = None)
  /\ (forall M : MathLib,
        (forall n, In n allNodes ->
           exists n',
             map_get nodeCoordinateMap (coordinateKey (x n) (y n)) = Some n')
        /\ (forall k n, map_get nodeCoordinateMap k = Some n ->
              In n allNodes /\ coordinateKey (x n) (y n) = k)
        /\ (forall k, set_has baseEdgeKeys k = true <->
              exists e, In e edges /\ key e = k))
  /\ (forall from to : GridNode,
        In from allNodes -> In to allNodes ->
        getEdgeSegments (M := Reference.lib) from to
        = straight_segments from to
        /\ match lattice_steps from to with
           | Some (k, _) =>
               exists segments,
                 getEdgeSegments (M := Reference.lib) from to = Some segments
                 /\ length segments = k
           | None => getEdgeSegments (M := Reference.lib) from to = None
           end).
Proof.
  split; [| split; [| split]].
  - intros M from to. split; [apply getEdgeSegments_None |].
    apply getEdgeSegments_Some_grid.
  - intros M n. apply getEdgeSegments_self.
  - intros M. split; [exact nodeCoordinateMap_has |].
    split; [exact nodeCoordinateMap_In | exact baseEdgeKeys_spec].
  - intros from to Hfrom Hto.
    assert (E : getEdgeSegments (M := Reference.lib) from to
                = straight_segments from to).
    { rewrite getEdgeSegments_in_tables.
      exact (agree_on_grid_spec _ _ _ reference_agrees_on_grid
               from to Hfrom Hto). }
    split; [exact E |]. rewrite E. apply straight_segments_length.
Qed.

Section EditProperties.

Context {M : MathLib}.

(** The invariant of a user edge set: every key is a key of the base
    grid, and no key occurs twice. *)
Definition valid_edge_set (edges : list GridEdge) : Prop :=
  Forall (fun e => set_has baseEdgeKeys (key e) = true) edges /\
  NoDup (map key edges).

(** Removing edges from a list with distinct keys leaves the keys
    distinct. *)
Lemma filter_keys_distinct (keep : GridEdge -> bool) (edges : list GridEdge) :
  NoDup (map key edges) -> NoDup (map key (filter keep edges)).
Proof.
  intros Hdistinct. induction edges as [|e edges IH]; cbn [filter map] in *.
  - constructor.
  - apply NoDup_cons_iff in Hdistinct as [Hfresh Hrest].
    destruct (keep e); cbn [map]; [| exact (IH Hrest)].
    apply NoDup_cons; [| exact (IH Hrest)].
    intros Hin. apply Hfresh.
    apply in_map_iff in Hin as [e' [Hkey Hin]].
    apply filter_In in Hin as [Hin _].
    rewrite <- Hkey. apply in_map, Hin.
Qed.

Lemma push_segment_cons (s : GridEdge) (segments : list GridEdge)
    (existingKeys : JSet) (nextEdges : list GridEdge) :
  fold_left push_segment (s :: segments) (existingKeys, nextEdges) =
  fold_left push_segment segments
    (if set_has existingKeys (key s) then (existingKeys, nextEdges)
     else (set_add existingKeys (key s), nextEdges ++ [s])).
Proof.
  cbn [fold_left push_segment]. now destruct (set_has existingKeys (key s)).
Qed.

(** The loop over the segments: [existingKeys] holds the keys of
    [nextEdges]; a segment is pushed when its key is new, and what is
    pushed goes behind what is there. *)
Lemma push_segments_spec (segments : list GridEdge) :
  forall (existingKeys : JSet) (nextEdges : list GridEdge),
    (forall k, In k existingKeys <-> In k (map key nextEdges)) ->
    Forall (fun e => set_has baseEdgeKeys (key e) = true) segments ->
    valid_edge_set nextEdges ->
    valid_edge_set
      (snd (fold_left push_segment segments (existingKeys, nextEdges))) /\
    (exists added,
       snd (fold_left push_segment segments (existingKeys, nextEdges))
       = nextEdges ++ added /\ incl added segments) /\
    (forall s, In s segments ->
       In (key s)
          (map key (snd (fold_left push_segment segments
                                   (existingKeys, nextEdges))))).
Proof.
  induction segments as [|s segments IH];
    intros existingKeys nextEdges Hkeys Hsegs Hvalid.
  - cbn [fold_left snd]. split; [exact Hvalid |]. split; [| intros s []].
    exists []. split; [now rewrite app_nil_r | intros z []].
  - inversion Hsegs as [|? ? Hs Hsegs']; subst.
    rewrite push_segment_cons.
    destruct (set_has existingKeys (key s)) eqn:Ehas; cbv iota.
    + destruct (IH existingKeys nextEdges Hkeys Hsegs' Hvalid)
        as [Hv [[added [Ha Hi]] Hall]].
      split; [exact Hv |]. split.
      * exists added. split; [exact Ha |]. intros z Hz. right. now apply Hi.
      * intros s' [<- | Hs']; [| now apply Hall].
        rewrite Ha, map_app. apply in_or_app. left.
        apply Hkeys. now apply set_has_In.
    + apply set_has_not_In in Ehas.
      destruct (IH (set_add existingKeys (key s)) (nextEdges ++ [s]))
        as [Hv [[added [Ha Hi]] Hall]].
      * intros k. rewrite set_add_In, map_app, in_app_iff, Hkeys.
        simpl. intuition congruence.
      * exact Hsegs'.
      * destruct Hvalid as [Hf Hn]. split.
        -- apply Forall_app. split; [exact Hf |]. now constructor.
        -- rewrite map_app. simpl. apply NoDup_snoc. split; [exact Hn |].
           now rewrite <- Hkeys.
      * split; [exact Hv |]. split.
        -- exists (s :: added). split.
           ++ rewrite Ha, <- app_assoc. reflexivity.
           ++ intros z [<- | Hz]; [now left | right; now apply Hi].
        -- intros s' [<- | Hs']; [| now apply Hall].
           rewrite Ha, !map_app. apply in_or_app. left.
           apply in_or_app. right. now left.
Qed.

Lemma unit_segments_valid (direction : DirectionInfo)
    (segments : list GridEdge) :
  Forall (unit_segment direction) segments ->
  Forall (fun e => set_has baseEdgeKeys (key e) = true) segments.
Proof.
  apply Forall_impl. intros e [_ [_ H]]. exact H.
Qed.

(** What [handleNodeClick] passes to [onEdgesChange], when it calls it. *)
Lemma handleNodeClick_change (edges : list GridEdge)
    (selected : option string) (node : GridNode) (nextEdges : list GridEdge) :
  onEdgesChange (handleNodeClick edges selected node) = Some nextEdges ->
  exists selectedId fromNode segments,
    selected = Some selectedId /\
    map_get nodeMap selectedId = Some fromNode /\
    getEdgeSegments fromNode node = Some segments /\
    nextEdges =
      snd (fold_left push_segment segments
             (fold_left set_add (map key edges) [], edges)).
Proof.
  unfold handleNodeClick, canCreateEdge.
  destruct selected as [selectedId|]; [| discriminate].
  destruct (String.eqb selectedId (id node)); [discriminate |].
  destruct (map_get nodeMap selectedId) as [fromNode|] eqn:En;
    [| discriminate].
  destruct (getEdgeSegments fromNode node) as [segments|] eqn:Es;
    [| discriminate].
  cbn [negb onEdgesChange]. intros [= <-].
  exists selectedId, fromNode, segments.
  split; [reflexivity |]. split; [exact En |]. split; [exact Es | reflexivity].
Qed.

Lemma handle_keeps_valid (edges : list GridEdge) (selected : option string)
    (ev : Edit) (nextEdges : list GridEdge) :
  valid_edge_set edges ->
  onEdgesChange (handle edges selected ev) = Some nextEdges ->
  valid_edge_set nextEdges.
Proof.
  intros Hvalid. destruct ev as [| targetEdge | node]; cbn [handle].
  - unfold handleClearEdges. destruct (length edges =? 0); [discriminate |].
    intros [= <-]. split; constructor.
  - unfold handleEdgeContextMenu. intros [= <-].
    destruct Hvalid as [Hf Hn]. split.
    + apply Forall_forall. intros e He. apply filter_In in He as [He _].
      rewrite Forall_forall in Hf. now apply Hf.
    + now apply filter_keys_distinct.
  - intros H. apply handleNodeClick_change in H
      as [selectedId [fromNode [segments [_ [_ [Hs ->]]]]]].
    apply getEdgeSegments_Some in Hs
      as [k [d [cur [_ [_ [_ [_ [_ [_ [_ Hu]]]]]]]]]].
    apply push_segments_spec.
    + intros k'. rewrite fold_set_add_In. simpl. tauto.
    + eapply unit_segments_valid, Hu.
    + exact Hvalid.
Qed.

Lemma reachable_valid (st : list GridEdge * option string) :
  reachable st -> valid_edge_set (fst st).
Proof.
  induction 1 as [| st ev _ IH].
  - split; constructor.
  - unfold apply_edit. cbn [fst].
    destruct (onEdgesChange (handle (fst st) (snd st) ev)) as [next|] eqn:E;
      [| exact IH].
    exact (handle_keeps_valid _ _ _ _ IH E).
Qed.

(** C6.  Every edge list the component can reach from the empty one by
    its edits (clear, remove an edge, click a node) holds only edges whose
    key is a key of the base grid, and no key twice.  When the gesture
    from the selected node to the clicked one has no decomposition,
    [handleNodeClick] does not call [onEdgesChange] and the edge list
    stays as it is; when it does call it, the gesture has a decomposition,
    the new list is the old one with segments of it added behind, and the
    key of every segment is in the new list: a chain is added whole or
    not at all. *)
Theorem edits_keep_edges_valid :
  (forall st, reachable st -> valid_edge_set (fst st))
  /\ (forall edges selectedId fromNode node,
        map_get nodeMap selectedId = Some fromNode ->
        getEdgeSegments fromNode node = None ->
        onEdgesChange (handleNodeClick edges (Some selectedId) node) = None /\
        fst (apply_edit (edges, Some selectedId) (NodeClick node)) = edges)
  /\ (forall edges selected node nextEdges,
        valid_edge_set edges ->
        onEdgesChange (handleNodeClick edges selected node) = Some nextEdges ->
        exists selectedId fromNode segments,
          selected = Some selectedId /\
          map_get nodeMap selectedId = Some fromNode /\
          getEdgeSegments fromNode node = Some segments /\
          (exists added, nextEdges = edges ++ added /\ incl added segments) /\
          forall s, In s segments -> In (key s) (map key nextEdges)).
Proof.
  split; [exact reachable_valid | split].
  - intros edges selectedId fromNode node Hn Hs.
    assert (H : onEdgesChange (handleNodeClick edges (Some selectedId) node)
                = None).
    { unfold handleNodeClick, canCreateEdge. rewrite Hn, Hs.
      destruct (String.eqb selectedId (id node)); reflexivity. }
    split; [exact H |]. unfold apply_edit. cbn [handle fst snd].
    now rewrite H.
  - intros edges selected node nextEdges Hvalid H.
    apply handleNodeClick_change in H
      as [selectedId [fromNode [segments [Hsel [Hn [Hs ->]]]]]].
    exists selectedId, fromNode, segments.
    split; [exact Hsel |]. split; [exact Hn |]. split; [exact Hs |].
    pose proof Hs as Hs'. apply getEdgeSegments_Some in Hs'
      as [k [d [cur [_ [_ [_ [_ [_ [_ [_ Hu]]]]]]]]]].
    apply push_segments_spec.
    + intros k'. rewrite fold_set_add_In. simpl. tauto.
    + eapply unit_segments_valid, Hu.
    + exact Hvalid.
Qed.

End EditProperties.

(* ================================================================== *)
(** * The properties on concrete drawings *)
(* ================================================================== *)

(** A node of degree 3: X joined to A, B and C. *)
Definition star3 : list GridEdge :=
  [plain_edge "X" "A"; plain_edge "X" "B"; plain_edge "X" "C"].

(** The trail found on [star3] is A, X, B: position 1 is X, of degree 3,
    and carries a kick. *)
Lemma generateRhythmSequence_events_witness :
  exists ev,
    nth_error (sequence (generateRhythmSequence star3)) 1 = Some ev /\
    let d := degree_at (computeDegreeMap star3) (Some "X") in
    (d <= 2 -> ev = None) /\
    (d = 3 -> ev = Some "kick") /\
    (d = 4 -> ev = Some "snare") /\
    (d = 5 -> ev = Some "clap") /\
    (6 <= d -> ev = Some "hihat").
Proof.
  apply (generateRhythmSequence_events star3 1 (Some "X")).
  vm_compute. reflexivity.
Defined.

(** A pitch table for the seven rows of the grid, for the examples. *)
Definition sample_layout : list (list Z) :=
  [[60; 62; 64; 65]; [67; 69; 71; 72; 74]; [76; 77; 79; 81; 83; 84];
   [48; 50; 52; 53; 55; 57; 59]; [36; 38; 40; 41; 43; 45];
   [72; 74; 76; 77; 79]; [84; 86; 88; 89]]%Z.

Lemma generators_length_witness :
  (length (sequence (generateRhythmSequence cycle4)) = 64 /\
   length (nodeOrder (generateRhythmSequence cycle4)) = 64) /\
  exists g, generatePhraseSequence sample_layout cycle4 = Ok g /\
            length (sequence g) = 64 /\ length (nodeOrder g) = 64.
Proof.
  apply (proj1 (generators_length sample_layout cycle4)). discriminate.
Defined.

(** Three unit edges of the grid that meet in the node of row 1,
    column 1. *)
Definition grid_star : list GridEdge :=
  [Reference.unit_edge "r1c1" "r1c0"; Reference.unit_edge "r1c1" "r1c2";
   Reference.unit_edge "r1c1" "r0c0"].

(** On [grid_star] position 1 is the node r1c1, of degree 3: a note of
    the pitch the table has at row 1, column 1, with velocity 3/6. *)
Lemma generatePhraseSequence_events_witness :
  exists g,
    generatePhraseSequence sample_layout grid_star = Ok g /\
    nth_error (sequence g) 1 = Some (Some (mkNote 69 0.5)).
Proof.
  destruct (generatePhraseSequence_events sample_layout grid_star)
    as [g [Hg Hev]].
  exists g. split; [exact Hg |].
  assert (Hi : nth_error (nodeOrder g) 1 = Some (Some "r1c1")).
  { vm_compute in Hg. injection Hg as <-. reflexivity. }
  destruct (Hev 1 (Some "r1c1") Hi) as [ev [Hn [_ Hnote]]].
  rewrite Hn. f_equal.
  destruct Hnote as [k [r [c [Hk [Hp Hm]]]]];
    [vm_compute; lia |].
  injection Hk as <-. vm_compute in Hp. injection Hp as <- <-.
  vm_compute in Hm. exact Hm.
Defined.

(** Two edges along row 0 and one edge down from it: two lines, the
    longer one first. *)
Definition two_lines : list GridEdge :=
  [Reference.unit_edge "r0c0" "r1c0"; Reference.unit_edge "r0c0" "r0c1";
   Reference.unit_edge "r0c1" "r0c2"].

Lemma generateChordSequence_progression_witness :
  nth_error
    (sequence (generateChordSequence (M := Reference.lib) sample_layout
                 two_lines)) 2
  = Some (mkChord [60; 62; 64]%Z)
  /\ nth_error
       (sequence (generateChordSequence (M := Reference.lib) sample_layout
                    two_lines)) 3
     = Some (mkChord [60; 67]%Z).
Proof.
  destruct (generateChordSequence_progression (M := Reference.lib)
              sample_layout two_lines)
    as [_ [_ [[_ [_ Hslots]] _]]].
  - discriminate.
  - vm_compute. reflexivity.
  - split.
    + rewrite (Hslots 2) by lia. vm_compute. reflexivity.
    + rewrite (Hslots 3) by lia. vm_compute. reflexivity.
Defined.

(** A drag from r0c0 to r3c3, three steps down to the right, gives the
    three unit edges in order; one from r0c0 to its neighbour r1c0 the one
    edge; one from r0c0 to r2c1 is along no direction of the grid. *)
Lemma getEdgeSegments_spec_witness :
  getEdgeSegments (M := Reference.lib)
    (Reference.node "r0c0") (Reference.node "r3c3")
  = Some [Reference.unit_edge "r0c0" "r1c1";
          Reference.unit_edge "r1c1" "r2c2";
          Reference.unit_edge "r2c2" "r3c3"]
  /\ getEdgeSegments (M := Reference.lib)
       (Reference.node "r0c0") (Reference.node "r1c0")
     = Some [Reference.unit_edge "r0c0" "r1c0"]
  /\ Rejection (M := Reference.lib)
       (Reference.node "r0c0") (Reference.node "r2c1").
Proof.
  destruct getEdgeSegments_spec as [Hflow [_ [_ Hgrid]]].
  split; [| split].
  - destruct (Hgrid (Reference.node "r0c0") (Reference.node "r3c3"))
      as [-> _]; [vm_compute; tauto | vm_compute; tauto |].
    vm_compute. reflexivity.
  - destruct (Hgrid (Reference.node "r0c0") (Reference.node "r1c0"))
      as [-> _]; [vm_compute; tauto | vm_compute; tauto |].
    vm_compute. reflexivity.
  - apply (proj1 (Hflow Reference.lib _ _)).
    destruct (Hgrid (Reference.node "r0c0") (Reference.node "r2c1"))
      as [-> _]; [vm_compute; tauto | vm_compute; tauto |].
    vm_compute. reflexivity.
Defined.

(** Two clicks, on r0c0 and then on r0c3, draw the three unit edges
    between them. *)
Definition after_two_clicks : list GridEdge * option string :=
  apply_edit (M := Reference.lib)
    (apply_edit (M := Reference.lib) ([], None)
       (NodeClick (Reference.node "r0c0")))
    (NodeClick (Reference.node "r0c3")).

Lemma edits_keep_edges_valid_witness :
  valid_edge_set (fst after_two_clicks).
Proof.
  apply (proj1 (edits_keep_edges_valid (M := Reference.lib))).
  apply reachable_step, reachable_step, reachable_init.
Defined.

(** A drag over three steps of the grid gives the three unit edges, in
    order; over one step, the one edge. *)
Example getEdgeSegments_three_steps :
  option_map (map key)
    (getEdgeSegments (M := Reference.lib)
       (Reference.node "r0c0") (Reference.node "r3c3"))
  = Some ["r0c0-r1c1"; "r1c1-r2c2"; "r2c2-r3c3"]
  /\ option_map (map key)
       (getEdgeSegments (M := Reference.lib)
          (Reference.node "r0c0") (Reference.node "r1c0"))
     = Some ["r0c0-r1c0"]
  /\ map key (fst after_two_clicks)
     = ["r0c0-r0c1"; "r0c1-r0c2"; "r0c2-r0c3"].
Proof. vm_compute. repeat split. Qed.

(** C2 as stated fails: on the empty edge set neither generator returns
    64 elements. *)
Lemma generators_empty_edge_set :
  length (sequence (generateRhythmSequence [])) <> 64
  /\ length (nodeOrder (generateRhythmSequence [])) <> 64
  /\ generatePhraseSequence sample_layout [] = Ok (mkGenerated [] []).
Proof. repeat split; discriminate. Qed.

(* ================================================================== *)
(** * Further properties of the mapping engine *)
(* ================================================================== *)

(** ** [pingPongToLength]: the bounce in closed form *)

(** The position on a path of [len] nodes after [n] steps of bouncing
    between its two ends: a triangle wave of period [2 * (len - 1)]. *)
Definition bounce_index (len n : nat) : nat :=
  let m := n mod (2 * (len - 1)) in
  if m <=? len - 1 then m else 2 * (len - 1) - m.

Lemma bounce_index_lt (len n : nat) : 2 <= len -> bounce_index len n < len.
Proof.
  intros H. unfold bounce_index.
  assert (Hm : n mod (2 * (len - 1)) < 2 * (len - 1))
    by (apply Nat.mod_upper_bound; lia).
  destruct (Nat.leb_spec (n mod (2 * (len - 1))) (len - 1)); lia.
Qed.

Lemma pingPong_loop_bounce (path : list string) (k : nat) :
  2 <= length path ->
  forall m,
    m < 2 * (length path - 1) ->
    pingPong_loop path k (m <? length path - 1)
      (Z.of_nat (bounce_index (length path) m))
    = map (fun j => nth_error path (bounce_index (length path) (m + j)))
          (seq 0 k).
Proof.
  intros Hlen. set (len := length path) in *. set (P := 2 * (len - 1)).
  assert (Hsmall : forall m, m < P -> bounce_index len m
                    = if m <=? len - 1 then m else P - m).
  { intros m Hm. unfold bounce_index. fold P. now rewrite Nat.mod_small. }
  assert (Hshift : forall m j, bounce_index len ((m + 1) mod P + j)
                               = bounce_index len (m + S j)).
  { intros m j. unfold bounce_index. fold P.
    rewrite Nat.Div0.add_mod_idemp_l.
    replace (m + 1 + j) with (m + S j) by lia. reflexivity. }
  induction k as [|k IH]; intros m Hm; [reflexivity |].
  cbn [pingPong_loop seq map]. rewrite <- seq_shift, map_map.
  rewrite Nat.add_0_r. f_equal.
  - unfold index. destruct (Z.ltb_spec (Z.of_nat (bounce_index len m)) 0);
      [lia |]. now rewrite Nat2Z.id.
  - assert (Hm' : (m + 1) mod P < P) by (apply Nat.mod_upper_bound; lia).
    rewrite (map_ext _ (fun j => nth_error path
               (bounce_index len ((m + 1) mod P + j))))
      by (intros j; now rewrite Hshift).
    rewrite <- (IH _ Hm'). fold len.
    assert (Hnext : (m + 1) mod P = if m + 1 =? P then 0 else m + 1).
    { destruct (Nat.eqb_spec (m + 1) P) as [E | E].
      - rewrite E. apply Nat.Div0.mod_same.
      - apply Nat.mod_small. lia. }
    rewrite (Hsmall m Hm), (Hsmall _ Hm'), Hnext.
    destruct (Nat.ltb_spec m (len - 1)) as [Hf | Hf].
    + (* going forward *)
      destruct (Nat.eqb_spec (m + 1) P); [lia |].
      destruct (Nat.leb_spec m (len - 1)); [| lia].
      destruct (Nat.leb_spec (m + 1) (len - 1)); [| lia].
      replace (Z.of_nat m + 1)%Z with (Z.of_nat (m + 1)) by lia.
      destruct (Z.eqb_spec (Z.of_nat (m + 1)) (Z.of_nat len - 1));
        destruct (Nat.ltb_spec (m + 1) (len - 1)); try lia; try reflexivity.
      destruct (Z.eqb_spec (Z.of_nat (m + 1)) 0); [lia | reflexivity].
    + (* going back *)
      destruct (Nat.leb_spec m (len - 1)).
      * (* at the far end *)
        assert (m = len - 1) by lia. subst m.
        destruct (Nat.eqb_spec (len - 1 + 1) P).
        -- (* a path of two nodes: the next step is the start *)
           replace (Z.of_nat (len - 1) - 1)%Z with 0%Z by lia.
           destruct (Z.eqb_spec 0 (Z.of_nat len - 1)); [lia |].
           destruct (Nat.ltb_spec 0 (len - 1)); [| lia]. reflexivity.
        -- destruct (Nat.leb_spec (len - 1 + 1) (len - 1)); [lia |].
           replace (Z.of_nat (len - 1) - 1)%Z
             with (Z.of_nat (P - (len - 1 + 1))) by lia.
           destruct (Z.eqb_spec (Z.of_nat (P - (len - 1 + 1)))
                                (Z.of_nat len - 1)); [lia |].
           destruct (Z.eqb_spec (Z.of_nat (P - (len - 1 + 1))) 0); [lia |].
           destruct (Nat.ltb_spec (len - 1 + 1) (len - 1)); [lia |].
           reflexivity.
      * destruct (Nat.eqb_spec (m + 1) P).
        -- replace (Z.of_nat (P - m) - 1)%Z with 0%Z by lia.
           destruct (Z.eqb_spec 0 (Z.of_nat len - 1)); [lia |].
           destruct (Nat.ltb_spec 0 (len - 1)); [| lia]. reflexivity.
        -- destruct (Nat.leb_spec (m + 1) (len - 1)); [lia |].
           replace (Z.of_nat (P - m) - 1)%Z
             with (Z.of_nat (P - (m + 1))) by lia.
           destruct (Z.eqb_spec (Z.of_nat (P - (m + 1)))
                                (Z.of_nat len - 1)); [lia |].
           destruct (Z.eqb_spec (Z.of_nat (P - (m + 1))) 0); [lia |].
           destruct (Nat.ltb_spec (m + 1) (len - 1)); [lia |].
           reflexivity.
Qed.

(** On a path of two or more nodes, the element at position [n] of the
    result is the node of the path at [bounce_index]: the walk goes from
    the first node to the last, back to the first, and so on, and no
    element is [undefined]. *)
Theorem pingPongToLength_bounce (path : list string) (targetLength n : nat) :
  2 <= length path -> n < targetLength ->
  exists node,
    nth_error path (bounce_index (length path) n) = Some node /\
    nth_error (pingPongToLength path targetLength) n = Some (Some node).
Proof.
  intros Hlen Hn.
  destruct (nth_error path (bounce_index (length path) n)) as [node|] eqn:E.
  - exists node. split; [reflexivity |].
    unfold pingPongToLength.
    destruct (Nat.eqb_spec (length path) 0); [lia |].
    pose proof (pingPong_loop_bounce path targetLength Hlen 0) as H.
    replace (0 <? length path - 1) with true in H
      by (symmetry; apply Nat.ltb_lt; lia).
    assert (H0 : bounce_index (length path) 0 = 0).
    { unfold bounce_index. now rewrite Nat.Div0.mod_0_l. }
    rewrite H0 in H. cbn [Z.of_nat] in H. rewrite H by lia.
    rewrite nth_error_map, nth_error_seq.
    destruct (Nat.ltb_spec n targetLength); [| lia].
    cbn [option_map Nat.add]. now rewrite E.
  - apply nth_error_None in E.
    pose proof (bounce_index_lt (length path) n Hlen). lia.
Qed.

Lemma pingPongToLength_bounce_witness :
  exists node,
    nth_error ["a"; "b"; "c"] (bounce_index 3 5) = Some node /\
    nth_error (pingPongToLength ["a"; "b"; "c"] 8) 5 = Some (Some node).
Proof.
  apply (pingPongToLength_bounce ["a"; "b"; "c"] 8 5); simpl; lia.
Defined.

(** ** [computeDegreeMap]: degrees count edge ends *)

(** The ids of the two ends of every edge, an id once per end. *)
Definition endpoints (edges : list GridEdge) : list string :=
  flat_map (fun e => [id (from e); id (to e)]) edges.

Lemma degree_of_set (degree : JMap nat) (k j : string) (v : nat) :
  degree_of (map_set degree k v) j
  = if String.eqb j k then v else degree_of degree j.
Proof.
  unfold degree_of. destruct (String.eqb_spec j k) as [-> | Hne].
  - now rewrite map_get_set_same.
  - now rewrite map_get_set_other.
Qed.

Lemma computeDegreeMap_step_degree (degree : JMap nat) (e : GridEdge)
    (j : string) :
  degree_of (computeDegreeMap_step degree e) j
  = degree_of degree j
    + count_occ string_dec [id (from e); id (to e)] j.
Proof.
  unfold computeDegreeMap_step. rewrite !degree_of_set. cbn [count_occ].
  destruct (String.eqb_spec j (id (to e))) as [-> | Ht];
    destruct (String.eqb_spec (id (to e)) (id (from e))) as [E | E];
    try rewrite E;
    repeat match goal with
           | |- context [string_dec ?a ?b] => destruct (string_dec a b)
           | |- context [String.eqb ?a ?b] => destruct (String.eqb_spec a b)
           end; try congruence; lia.
Qed.

Lemma fold_computeDegreeMap_degree (edges : list GridEdge) :
  forall degree j,
    degree_of (fold_left computeDegreeMap_step edges degree) j
    = degree_of degree j + count_occ string_dec (endpoints edges) j.
Proof.
  induction edges as [|e edges IH]; intros degree j; cbn [fold_left].
  - simpl. lia.
  - rewrite IH, computeDegreeMap_step_degree.
    unfold endpoints. cbn [flat_map]. rewrite count_occ_app.
    fold (endpoints edges). lia.
Qed.

Lemma degree_sum_set (degree : JMap nat) (k : string) :
  list_sum (map snd (map_set degree k (degree_of degree k + 1)))
  = list_sum (map snd degree) + 1.
Proof.
  unfold degree_of. induction degree as [|[k' v'] degree IH]; simpl.
  - reflexivity.
  - destruct (String.eqb k k'); simpl; [lia |]. rewrite IH. lia.
Qed.

(** The degree of a node id is the number of edge ends with that id (an
    edge from a node to itself counts twice, and so does an edge drawn
    twice); ids that end no edge have degree 0, the others are the keys of
    the map; and the degrees add up to twice the number of edges. *)
Theorem computeDegreeMap_counts (edges : list GridEdge) :
  (forall k, degree_of (computeDegreeMap edges) k
             = count_occ string_dec (endpoints edges) k)
  /\ (forall k, map_has (computeDegreeMap edges) k = true
                <-> In k (endpoints edges))
  /\ list_sum (map snd (computeDegreeMap edges)) = 2 * length edges.
Proof.
  unfold computeDegreeMap. split; [| split].
  - intros k. now rewrite fold_computeDegreeMap_degree.
  - intros k.
    assert (H : forall es degree,
      In k (map_keys (fold_left computeDegreeMap_step es degree)) <->
      In k (map_keys degree) \/ In k (endpoints es)).
    { induction es as [|e es IH]; intros degree; cbn [fold_left].
      - simpl. tauto.
      - rewrite IH. unfold computeDegreeMap_step.
        rewrite !map_keys_set_In. unfold endpoints at 2. cbn [flat_map].
        rewrite in_app_iff. simpl. fold (endpoints es).
        intuition congruence. }
    rewrite map_has_In, H. simpl. tauto.
  - assert (H : forall es degree,
      list_sum (map snd (fold_left computeDegreeMap_step es degree))
      = list_sum (map snd degree) + 2 * length es).
    { induction es as [|e es IH]; intros degree; cbn [fold_left length].
      - lia.
      - rewrite IH. unfold computeDegreeMap_step.
        rewrite !degree_sum_set. lia. }
    rewrite H. reflexivity.
Qed.

(** ** [buildAdjacency]: the map of a drawing *)

(** An adjacency map as a [Map] of [Set]s: no key twice, no neighbour
    twice in one set. *)
Definition well_formed (adj : JMap JSet) : Prop :=
  NoDup (map_keys adj) /\ forall k s, In (k, s) adj -> NoDup s.

Lemma map_set_entries {V} (m : JMap V) (k : string) (v : V) (k' : string)
    (v' : V) :
  In (k', v') (map_set m k v) -> In (k', v') m \/ (k' = k /\ v' = v).
Proof.
  induction m as [|[k0 v0] m IH]; simpl.
  - intros [[= <- <-] | []]. now right.
  - destruct (String.eqb_spec k k0) as [-> | Hne]; simpl.
    + intros [[= <- <-] | H]; [now right | left; now right].
    + intros [H | H]; [left; now left |].
      destruct (IH H) as [H' | H']; [left; now right | now right].
Qed.

Lemma map_set_well_formed (adj : JMap JSet) (k : string) (s : JSet) :
  well_formed adj -> NoDup s -> well_formed (map_set adj k s).
Proof.
  intros [Hk Hs] Hnd. split.
  - rewrite map_keys_set. destruct (map_has adj k) eqn:E; [exact Hk |].
    apply NoDup_snoc. split; [exact Hk |].
    intros Hin. apply map_has_In in Hin. congruence.
  - intros k' s' Hin. apply map_set_entries in Hin as [Hin | [_ ->]];
      [now apply (Hs k') | exact Hnd].
Qed.

Lemma buildAdjacency_step_well_formed (adj : JMap JSet) (e : GridEdge) :
  well_formed adj -> well_formed (buildAdjacency_step adj e).
Proof.
  intros H. rewrite buildAdjacency_step_unfold.
  assert (Hens : forall a k, well_formed a -> well_formed (ensure_key a k)).
  { intros a k Ha. unfold ensure_key. destruct (map_has a k); [exact Ha |].
    apply map_set_well_formed; [exact Ha | constructor]. }
  assert (Hadd : forall a k v, well_formed a -> well_formed (adj_add a k v)).
  { intros a k v Ha. unfold adj_add.
    destruct (map_get a k) as [s|] eqn:E; [| exact Ha].
    apply map_set_well_formed; [exact Ha |].
    apply set_add_NoDup. destruct Ha as [_ Hs].
    apply (Hs k). now apply map_get_In. }
  apply Hadd, Hadd, Hens, Hens, H.
Qed.

Lemma buildAdjacency_well_formed (edges : list GridEdge) :
  well_formed (buildAdjacency edges).
Proof.
  unfold buildAdjacency.
  assert (H : forall adj, well_formed adj ->
                          well_formed (fold_left buildAdjacency_step edges adj)).
  { induction edges as [|e edges IH]; intros adj Ha; cbn [fold_left];
      [exact Ha |]. apply IH, buildAdjacency_step_well_formed, Ha. }
  apply H. split; [constructor | intros k s []].
Qed.

(** The adjacency map of a drawing: its keys are the ids that end some
    edge; [b] is listed under [a] exactly when an edge joins them, in
    either direction, so the relation is symmetric; and the map lists no
    key and no neighbour twice, however often an edge is repeated. *)
Theorem buildAdjacency_spec (edges : list GridEdge) :
  (forall k, In k (map_keys (buildAdjacency edges)) <-> In k (endpoints edges))
  /\ (forall a b,
        In b (neighbours (buildAdjacency edges) a) <->
        exists e, In e edges /\
          ((a = id (from e) /\ b = id (to e))
           \/ (a = id (to e) /\ b = id (from e))))
  /\ (forall a b,
        In b (neighbours (buildAdjacency edges) a) ->
        In a (neighbours (buildAdjacency edges) b))
  /\ well_formed (buildAdjacency edges).
Proof.
  split; [| split; [| split]].
  - intros k. rewrite buildAdjacency_keys. unfold endpoints.
    rewrite in_flat_map. simpl. split.
    + intros [e [He H]]. exists e. intuition congruence.
    + intros [e [He H]]. exists e. intuition congruence.
  - intros a b. apply buildAdjacency_adjacent.
  - intros a b H. apply buildAdjacency_adjacent.
    apply buildAdjacency_adjacent in H as [e [He H]].
    exists e. tauto.
  - apply buildAdjacency_well_formed.
Qed.

(** The ids at the other end of the edges that end in [k], one for each
    such end. *)
Definition other_ends (k : string) (edges : list GridEdge) : list string :=
  flat_map
    (fun e =>
       (if string_dec (id (from e)) k then [id (to e)] else [])
       ++ (if string_dec (id (to e)) k then [id (from e)] else []))
    edges.

Lemma other_ends_length (k : string) (edges : list GridEdge) :
  length (other_ends k edges) = count_occ string_dec (endpoints edges) k.
Proof.
  unfold other_ends, endpoints.
  induction edges as [|e edges IH]; cbn [flat_map]; [reflexivity |].
  rewrite !length_app, count_occ_app, IH. cbn [count_occ].
  destruct (string_dec (id (from e)) k);
    destruct (string_dec (id (to e)) k); simpl; lia.
Qed.

(** A node has at most as many distinct neighbours as its degree; the
    two differ when an edge is drawn twice or joins a node to itself. *)
Theorem neighbours_at_most_degree (edges : list GridEdge) (k : string) :
  length (neighbours (buildAdjacency edges) k)
  <= degree_of (computeDegreeMap edges) k.
Proof.
  unfold computeDegreeMap. rewrite fold_computeDegreeMap_degree.
  cbn [degree_of map_get Nat.add]. rewrite <- other_ends_length.
  apply NoDup_incl_length.
  - destruct (buildAdjacency_well_formed edges) as [_ Hs].
    unfold neighbours.
    destruct (map_get (buildAdjacency edges) k) as [s|] eqn:E;
      [| constructor].
    apply (Hs k). now apply map_get_In.
  - intros b Hb. apply buildAdjacency_adjacent in Hb as [e [He H]].
    unfold other_ends. apply in_flat_map. exists e. split; [exact He |].
    apply in_or_app.
    destruct H as [[-> ->] | [-> ->]].
    + left. destruct (string_dec (id (from e)) (id (from e)));
        [now left | congruence].
    + right. destruct (string_dec (id (to e)) (id (to e)));
        [now left | congruence].
Qed.

(** ** [longestTrail] on a drawing *)

Lemma chain_nth (adj : JMap JSet) (p : list string) :
  chain adj p ->
  forall i a b,
    nth_error p i = Some a -> nth_error p (S i) = Some b -> adjacent adj a b.
Proof.
  induction p as [|c p IH]; intros Hc i a b Ha Hb.
  - destruct i; discriminate.
  - destruct p as [|d p]; [destruct i; discriminate |].
    destruct Hc as [Hcd Hc]. destruct i as [|i].
    + simpl in Ha, Hb. injection Ha as <-. injection Hb as <-. exact Hcd.
    + exact (IH Hc i a b Ha Hb).
Qed.

(** The trail a generator follows walks along the drawing: every node of
    it ends some edge, no node occurs twice, and two consecutive nodes are
    the two ends of a drawn edge.  A drawing with an edge between two
    different nodes gives a trail of at least two nodes. *)
Theorem longestTrail_follows_edges (edges : list GridEdge) :
  let path := longestTrail (buildAdjacency edges) in
  NoDup path
  /\ (forall a, In a path -> In a (endpoints edges))
  /\ (forall i a b,
        nth_error path i = Some a -> nth_error path (S i) = Some b ->
        exists e, In e edges /\
          ((a = id (from e) /\ b = id (to e))
           \/ (a = id (to e) /\ b = id (from e))))
  /\ ((exists e, In e edges /\ id (from e) <> id (to e)) ->
      2 <= length path).
Proof.
  intros path.
  destruct (longestTrail_simple_path (buildAdjacency edges))
    as [Hnd [Hch Hin]]. fold path in Hnd, Hch, Hin.
  split; [exact Hnd | split; [| split]].
  - intros a Ha. apply Hin in Ha. unfold graph_nodes in Ha.
    apply in_app_or in Ha as [Ha | Ha].
    + apply buildAdjacency_keys in Ha as [e [He H]].
      unfold endpoints. apply in_flat_map. exists e. simpl.
      intuition congruence.
    + apply in_flat_map in Ha as [[k s] [Hks Ha]]. cbn [snd] in Ha.
      assert (Hadj : adjacent (buildAdjacency edges) k a).
      { unfold adjacent, neighbours.
        destruct (buildAdjacency_well_formed edges) as [Hk _].
        assert (Hget : map_get (buildAdjacency edges) k = Some s).
        { clear - Hk Hks. induction (buildAdjacency edges) as [|[k0 s0] m IH];
            [destruct Hks |]. simpl in *.
          inversion Hk as [|? ? Hn Hk']; subst.
          destruct Hks as [[= -> ->] | Hks].
          - now rewrite String.eqb_refl.
          - destruct (String.eqb_spec k k0) as [-> | _]; [| now apply IH].
            exfalso. apply Hn. change k0 with (fst (k0, s)).
            now apply in_map. }
        now rewrite Hget. }
      apply buildAdjacency_adjacent in Hadj as [e [He H]].
      unfold endpoints. apply in_flat_map. exists e. simpl.
      intuition congruence.
  - intros i a b Ha Hb. apply buildAdjacency_adjacent.
    exact (chain_nth _ _ Hch i a b Ha Hb).
  - intros [e [He Hne]].
    assert (Hp : simple_path (buildAdjacency edges) [id (from e); id (to e)]).
    { split; [| split].
      - constructor; [intros [H | []]; congruence |].
        constructor; [intros [] | constructor].
      - split; [| exact I]. apply buildAdjacency_adjacent.
        exists e. tauto.
      - intros z Hz. unfold graph_nodes. apply in_or_app. left.
        apply buildAdjacency_keys. exists e. simpl in Hz.
        intuition congruence. }
    exact (longestTrail_longest _ _ Hp).
Qed.

(** ** Silent drawings *)

(** [MidiScheduler], as far as its decision to play goes.  The
    [Tone.Pattern] it builds is kept as the array it is built over;
    [None] is "no pattern". *)
Module Scheduler.

Inductive TrackType : Type := Rhythm | Phrase | Chord.

Record MidiScheduler (E : Type) := mkScheduler {
  type : TrackType;
  sequence : list (option E);
  pattern : option (list (option E));
  isMuted : bool
}.
Arguments mkScheduler {E} _ _ _ _.
Arguments type {E} _.
Arguments sequence {E} _.
Arguments pattern {E} _.
Arguments isMuted {E} _.

Definition setType {E} (s : MidiScheduler E) (t : TrackType)
  : MidiScheduler E :=
  mkScheduler t (sequence s) (pattern s) (isMuted s).

Definition load {E} (s : MidiScheduler E) (seq : list (option E))
  : MidiScheduler E :=
  mkScheduler (type s) seq (pattern s) (isMuted s).

Definition is_null {E} (v : option E) : bool :=
  match v with None => true | Some _ => false end.

(** An old pattern is stopped and dropped; a new one is built unless the
    sequence is empty or holds only [null].  (The source takes a [delay]
    argument and does not use it.) *)
Definition attachToTransport {E} (s : MidiScheduler E) : MidiScheduler E :=
  let s := mkScheduler (type s) (sequence s) None (isMuted s) in
  if (length (sequence s) =? 0) || forallb is_null (sequence s) then s
  else mkScheduler (type s) (sequence s) (Some (sequence s)) (isMuted s).

Definition stop {E} (s : MidiScheduler E) : MidiScheduler E :=
  mkScheduler (type s) (sequence s) None (isMuted s).

End Scheduler.

Lemma pingPongToLength_nodes (path : list string) (n : nat) (k : string) :
  In (Some k) (pingPongToLength path n) -> In k path.
Proof.
  unfold pingPongToLength. destruct (length path =? 0); [intros [] |].
  generalize true, 0%Z. induction n as [|n IH]; intros forward i; simpl.
  - intros [].
  - intros [H | H]; [now apply index_Some_In in H | exact (IH _ _ H)].
Qed.

(** A Rhythm track plays only where the trail passes a node where three
    or more edges meet.  The sequence has an event exactly when some
    position of [nodeOrder] holds a node of degree 3 or more; without one
    (a single line, a closed loop) every step is a rest and the scheduler,
    loaded with the sequence, builds no pattern. *)
Theorem rhythm_plays_at_junctions (edges : list GridEdge)
    (s : Scheduler.MidiScheduler string) :
  let g := generateRhythmSequence edges in
  let played :=
    Scheduler.attachToTransport
      (Scheduler.load (Scheduler.setType s Scheduler.Rhythm) (sequence g)) in
  ((exists i k, nth_error (nodeOrder g) i = Some (Some k) /\
                3 <= degree_of (computeDegreeMap edges) k)
   <-> Scheduler.pattern played = Some (sequence g))
  /\ ((forall k, In k (longestTrail (buildAdjacency edges)) ->
                 degree_of (computeDegreeMap edges) k <= 2) ->
      Forall (fun ev => ev = None) (sequence g) /\
      Scheduler.pattern played = None).
Proof.
  intros g played.
  assert (Hev : forall id, rhythm_event (computeDegreeMap edges) id = None <->
                           degree_at (computeDegreeMap edges) id <= 2).
  { intros id. unfold rhythm_event.
    set (d := degree_at (computeDegreeMap edges) id).
    destruct (Nat.leb_spec d 2); [tauto |].
    destruct (Nat.eqb_spec d 3); [split; [discriminate | lia] |].
    destruct (Nat.eqb_spec d 4); [split; [discriminate | lia] |].
    destruct (Nat.eqb_spec d 5); [split; [discriminate | lia] |].
    destruct (Nat.leb_spec 6 d); [split; [discriminate | lia] | lia]. }
  assert (Hpat : Scheduler.pattern played =
                 if (length (sequence g) =? 0)
                    || forallb Scheduler.is_null (sequence g)
                 then None else Some (sequence g)).
  { unfold played, Scheduler.attachToTransport, Scheduler.load,
      Scheduler.setType. cbn [Scheduler.sequence Scheduler.type
      Scheduler.isMuted].
    destruct ((length (sequence g) =? 0)
              || forallb Scheduler.is_null (sequence g)); reflexivity. }
  assert (Hnull : forallb Scheduler.is_null (sequence g) = true <->
                  forall id, In id (nodeOrder g) ->
                             degree_at (computeDegreeMap edges) id <= 2).
  { unfold g, generateRhythmSequence. cbn [sequence nodeOrder].
    rewrite forallb_forall. split.
    - intros H id Hid. apply Hev.
      specialize (H _ (in_map (rhythm_event (computeDegreeMap edges)) _ _ Hid)).
      now destruct (rhythm_event (computeDegreeMap edges) id).
    - intros H ev Hin. apply in_map_iff in Hin as [id [<- Hid]].
      apply H, Hev in Hid. now rewrite Hid. }
  split.
  - rewrite Hpat. split.
    + intros [i [k [Hi Hd]]].
      destruct (length (sequence g) =? 0) eqn:El.
      { apply Nat.eqb_eq in El. unfold g, generateRhythmSequence in El, Hi.
        cbn [sequence nodeOrder] in El, Hi. rewrite length_map in El.
        apply nth_error_In in Hi. destruct (pingPongToLength _ _);
          [destruct Hi | discriminate]. }
      destruct (forallb Scheduler.is_null (sequence g)) eqn:En;
        [| reflexivity].
      pose proof (proj1 Hnull eq_refl (Some k) (nth_error_In _ _ Hi)) as Hk.
      simpl in Hk. lia.
    + intros H.
      destruct ((length (sequence g) =? 0)
                || forallb Scheduler.is_null (sequence g)) eqn:E;
        [discriminate |].
      apply orb_false_elim in E as [_ En].
      assert (Hex : exists id, In id (nodeOrder g) /\
                               3 <= degree_at (computeDegreeMap edges) id).
      { clear - En Hnull. destruct Hnull as [_ Hn].
        induction (nodeOrder g) as [|id l IH].
        - exfalso. rewrite Hn in En; [discriminate | intros id []].
        - destruct (Nat.leb_spec 3 (degree_at (computeDegreeMap edges) id)).
          + exists id. split; [now left | assumption].
          + destruct IH as [id' [Hin Hd]].
            * intros Hl. apply Hn. intros id' [<- | Hin]; [lia | now apply Hl].
            * exists id'. split; [now right | exact Hd]. }
      destruct Hex as [[k|] [Hin Hd]]; [| simpl in Hd; lia].
      apply In_nth_error in Hin as [i Hi]. now exists i, k.
  - intros Hdeg.
    assert (Hall : forall id, In id (nodeOrder g) ->
                              degree_at (computeDegreeMap edges) id <= 2).
    { intros [k|] Hid; [| simpl; lia]. simpl. apply Hdeg.
      unfold g, generateRhythmSequence in Hid. cbn [nodeOrder] in Hid.
      now apply pingPongToLength_nodes in Hid. }
    split.
    + unfold g, generateRhythmSequence. cbn [sequence].
      apply Forall_forall. intros ev Hin.
      apply in_map_iff in Hin as [id [<- Hid]]. apply Hev, Hall, Hid.
    + rewrite Hpat. apply Hnull in Hall. rewrite Hall.
      now rewrite orb_true_r.
Qed.

(** The 4-cycle has no junction: its rhythm is 64 rests. *)
Lemma rhythm_plays_at_junctions_witness :
  Forall (fun ev => ev = None) (sequence (generateRhythmSequence cycle4)) /\
  Scheduler.pattern
    (Scheduler.attachToTransport
       (Scheduler.load
          (Scheduler.setType
             (Scheduler.mkScheduler Scheduler.Chord [] None false)
             Scheduler.Rhythm)
          (sequence (generateRhythmSequence cycle4)))) = None.
Proof.
  apply (proj2 (rhythm_plays_at_junctions cycle4
                  (Scheduler.mkScheduler Scheduler.Chord [] None false))).
  intros k Hk. vm_compute in Hk.
  repeat (destruct Hk as [<- | Hk]; [vm_compute; lia |]). destruct Hk.
Defined.

(** ** The pitch table and the chords *)

Section NoteProperties.

Variable layout : list (list Z).
Context {M : MathLib}.

(** [getNoteFromNode] finds a pitch exactly inside the table: row and
    column are not negative, the row exists, and the column exists in that
    row (rows may differ in length); everywhere else it gives "no pitch". *)
Theorem getNoteFromNode_in_table (row col pitch : Z) :
  getNoteFromNode layout row col = Some pitch <->
  (0 <= row)%Z /\ (0 <= col)%Z /\
  exists rowData,
    nth_error layout (Z.to_nat row) = Some rowData /\
    nth_error rowData (Z.to_nat col) = Some pitch.
Proof.
  unfold getNoteFromNode, index. split.
  - destruct (Z.ltb_spec row 0); [discriminate |].
    destruct (Z.geb_spec row (Z.of_nat (length layout))); [discriminate |].
    cbn [orb]. destruct (nth_error layout (Z.to_nat row)) as [rowData|] eqn:Er;
      [| discriminate].
    destruct (Z.ltb_spec col 0); [discriminate |].
    destruct (Z.geb_spec col (Z.of_nat (length rowData))); [discriminate |].
    cbn [orb]. intros Hpitch. split; [lia |]. split; [lia |].
    now exists rowData.
  - intros [Hr [Hc [rowData [Er Ec]]]].
    assert (Hrl : Z.to_nat row < length layout)
      by (apply nth_error_Some; congruence).
    assert (Hcl : Z.to_nat col < length rowData)
      by (apply nth_error_Some; congruence).
    destruct (Z.ltb_spec row 0); [lia |].
    destruct (Z.geb_spec row (Z.of_nat (length layout))); [lia |].
    cbn [orb]. rewrite Er.
    destruct (Z.ltb_spec col 0); [lia |].
    destruct (Z.geb_spec col (Z.of_nat (length rowData))); [lia |].
    exact Ec.
Qed.

Lemma pins_add_In (pins : list Z) (n p : Z) :
  In p (pins_add pins n) <-> In p pins \/ p = n.
Proof.
  unfold pins_add. destruct (existsb (Z.eqb n) pins) eqn:E.
  - apply existsb_exists in E as [q [Hq Hn]]. apply Z.eqb_eq in Hn. subst q.
    split; [tauto | intros [H | ->]; assumption].
  - rewrite in_app_iff. simpl. intuition congruence.
Qed.

Lemma pins_add_NoDup (pins : list Z) (n : Z) :
  NoDup pins -> NoDup (pins_add pins n).
Proof.
  intros H. unfold pins_add. destruct (existsb (Z.eqb n) pins) eqn:E;
    [exact H |].
  apply NoDup_snoc. split; [exact H |]. intros Hin.
  assert (existsb (Z.eqb n) pins = true); [| congruence].
  apply existsb_exists. exists n. split; [exact Hin | apply Z.eqb_refl].
Qed.

(** The pitch of a node, if the table has one. *)
Definition node_pitch (n : GridNode) : option Z :=
  getNoteFromNode layout (row n) (col n).

Lemma add_node_pitches (nodes : list GridNode) :
  forall pins,
    NoDup pins ->
    let pins' :=
      fold_left
        (fun pins n =>
           match getNoteFromNode layout (row n) (col n) with
           | Some note => pins_add pins note
           | None => pins
           end) nodes pins in
    NoDup pins' /\
    forall p, In p pins' <->
              In p pins \/ exists n, In n nodes /\ node_pitch n = Some p.
Proof.
  induction nodes as [|n nodes IH]; intros pins Hnd; cbn [fold_left].
  - split; [exact Hnd |]. intros p. split; [tauto |].
    intros [H | [n [[] _]]]. exact H.
  - fold (node_pitch n). destruct (node_pitch n) as [note|] eqn:En.
    + destruct (IH (pins_add pins note) (pins_add_NoDup _ _ Hnd)) as [H1 H2].
      split; [exact H1 |]. intros p. rewrite H2, pins_add_In. split.
      * intros [[H | ->] | [n' [Hn' Hp]]];
          [now left | right; exists n; split; [now left | exact En] |].
        right. exists n'. split; [now right | exact Hp].
      * intros [H | [n' [[<- | Hn'] Hp]]]; [tauto | |].
        -- left. right. congruence.
        -- right. now exists n'.
    + destruct (IH pins Hnd) as [H1 H2]. split; [exact H1 |].
      intros p. rewrite H2. split.
      * intros [H | [n' [Hn' Hp]]]; [now left |].
        right. exists n'. split; [now right | exact Hp].
      * intros [H | [n' [[<- | Hn'] Hp]]]; [tauto | congruence |].
        right. now exists n'.
Qed.

(** The chord of a line holds each pitch once, and its pitches are those
    the table gives the end nodes of the line's edges; end nodes without a
    pitch add nothing. *)
Theorem chord_of_pitches (line : LineInfo) :
  NoDup (chord_of layout line)
  /\ forall p,
       In p (chord_of layout line) <->
       exists e n, In e (group line) /\ (n = from e \/ n = to e) /\
                   node_pitch n = Some p.
Proof.
  unfold chord_of.
  assert (H : forall es pins,
    NoDup pins ->
    let pins' :=
      fold_left
        (fun pins e =>
           fold_left
             (fun pins n =>
                match getNoteFromNode layout (row n) (col n) with
                | Some note => pins_add pins note
                | None => pins
                end) [from e; to e] pins) es pins in
    NoDup pins' /\
    forall p, In p pins' <->
      In p pins \/
      exists e n, In e es /\ (n = from e \/ n = to e) /\
                  node_pitch n = Some p).
  { induction es as [|e es IH]; intros pins Hnd; cbn [fold_left].
    - split; [exact Hnd |]. intros p. split; [tauto |].
      intros [H | [e [n [[] _]]]]. exact H.
    - destruct (add_node_pitches [from e; to e] pins Hnd) as [H1 H2].
      cbn [fold_left] in H1, H2.
      destruct (IH _ H1) as [H3 H4]. split; [exact H3 |].
      intros p. rewrite H4, H2. split.
      + intros [[H | [n [Hn Hp]]] | [e' [n [He' [Hn Hp]]]]].
        * now left.
        * right. exists e, n. split; [now left |].
          split; [| exact Hp]. simpl in Hn. intuition congruence.
        * right. exists e', n. split; [now right | now split].
      + intros [H | [e' [n [[<- | He'] [Hn Hp]]]]].
        * left. now left.
        * left. right. exists n. split; [| exact Hp].
          simpl. intuition congruence.
        * right. now exists e', n. }
  destruct (H (group line) [] (NoDup_nil _)) as [H1 H2].
  split; [exact H1 |]. intros p. rewrite H2. simpl. tauto.
Qed.

End NoteProperties.

(** ** Edge keys and the edit handlers *)

(** The key of an edge does not depend on the order of its two ends. *)
Theorem createEdgeKey_symmetric (a b : GridNode) :
  createEdgeKey a b = createEdgeKey b a.
Proof.
  unfold createEdgeKey, String.ltb.
  rewrite (String.compare_antisym (id b) (id a)).
  destruct (String.compare (id a) (id b)) eqn:E; cbn [CompOpp];
    [| reflexivity | reflexivity].
  apply String.compare_eq_iff in E. rewrite E. reflexivity.
Qed.

Section MoreEditProperties.

Context {M : MathLib}.

Lemma filter_other_keys_length (k : string) (edges : list GridEdge) :
  NoDup (map key edges) ->
  In k (map key edges) ->
  S (length (filter (fun e => negb (String.eqb (key e) k)) edges))
  = length edges.
Proof.
  induction edges as [|e edges IH]; cbn [map filter length];
    intros Hnd Hin; [destruct Hin |].
  apply NoDup_cons_iff in Hnd as [Hfresh Hnd].
  destruct (String.eqb_spec (key e) k) as [E | E]; cbn [negb length].
  - f_equal. subst k. clear IH Hin.
    induction edges as [|e' edges IH]; [reflexivity |].
    cbn [map filter] in *.
    destruct (String.eqb_spec (key e') (key e)) as [E' | E'].
    + exfalso. apply Hfresh. left. exact E'.
    + cbn [negb length]. f_equal. apply IH.
      * intros H. apply Hfresh. now right.
      * now apply NoDup_cons_iff in Hnd.
  - f_equal. apply IH; [exact Hnd |].
    destruct Hin as [H | H]; [congruence | exact H].
Qed.

(** A right click on an edge of a list with distinct keys removes that
    edge and nothing else: the list passed on holds the other edges, in
    their order, and is one shorter; the selected node stays as it is. *)
Theorem handleEdgeContextMenu_removes_one (edges : list GridEdge)
    (selected : option string) (targetEdge : GridEdge) :
  NoDup (map key edges) ->
  In targetEdge edges ->
  exists nextEdges,
    handleEdgeContextMenu edges selected targetEdge
      = mkOutcome (Some nextEdges) selected /\
    S (length nextEdges) = length edges /\
    (forall e, In e nextEdges <-> In e edges /\ e <> targetEdge) /\
    ~ In (key targetEdge) (map key nextEdges).
Proof.
  intros Hnd Hin. unfold handleEdgeContextMenu. eexists.
  split; [reflexivity |]. split; [| split].
  - apply filter_other_keys_length; [exact Hnd | now apply in_map].
  - intros e. rewrite filter_In. split.
    + intros [He Hk]. split; [exact He |]. intros ->.
      rewrite String.eqb_refl in Hk. discriminate.
    + intros [He Hne]. split; [exact He |].
      destruct (String.eqb_spec (key e) (key targetEdge)) as [E | E];
        [| reflexivity].
      exfalso. apply Hne. clear - Hnd He Hin E.
      induction edges as [|e0 edges IH]; [destruct He |].
      cbn [map] in Hnd. apply NoDup_cons_iff in Hnd as [Hfresh Hnd].
      destruct He as [-> | He]; destruct Hin as [<- | Hin];
        try reflexivity.
      * exfalso. apply Hfresh. rewrite E. now apply in_map.
      * exfalso. apply Hfresh. rewrite <- E. now apply in_map.
      * now apply IH.
  - intros H. apply in_map_iff in H as [e [Hk He]].
    apply filter_In in He as [_ He]. rewrite Hk, String.eqb_refl in He.
    discriminate.
Qed.

Lemma handleEdgeContextMenu_removes_one_witness :
  exists nextEdges,
    handleEdgeContextMenu cycle4 (Some "A") (plain_edge "B" "C")
      = mkOutcome (Some nextEdges) (Some "A") /\
    S (length nextEdges) = length cycle4 /\
    (forall e, In e nextEdges <-> In e cycle4 /\ e <> plain_edge "B" "C") /\
    ~ In (key (plain_edge "B" "C")) (map key nextEdges).
Proof.
  apply (handleEdgeContextMenu_removes_one cycle4 (Some "A")
           (plain_edge "B" "C")).
  - repeat constructor; simpl; intuition discriminate.
  - right. left. reflexivity.
Defined.

Lemma push_segments_known (segments : list GridEdge) (existingKeys : JSet)
    (nextEdges : list GridEdge) :
  (forall s, In s segments -> In (key s) existingKeys) ->
  fold_left push_segment segments (existingKeys, nextEdges)
  = (existingKeys, nextEdges).
Proof.
  induction segments as [|s segments IH]; intros H; [reflexivity |].
  rewrite push_segment_cons.
  replace (set_has existingKeys (key s)) with true.
  - apply IH. intros s' Hs'. apply H. now right.
  - symmetry. apply set_has_In, H. now left.
Qed.

(** Drawing over what is drawn changes nothing: when every segment of
    the gesture already has its key in the edge list, [handleNodeClick]
    passes the same list on (and clears the selection). *)
Theorem handleNodeClick_redraw (edges : list GridEdge) (selectedId : string)
    (fromNode node : GridNode) (segments : list GridEdge) :
  selectedId <> id node ->
  map_get nodeMap selectedId = Some fromNode ->
  getEdgeSegments fromNode node = Some segments ->
  (forall s, In s segments -> In (key s) (map key edges)) ->
  handleNodeClick edges (Some selectedId) node = mkOutcome (Some edges) None.
Proof.
  intros Hne Hn Hs Hknown. unfold handleNodeClick, canCreateEdge.
  destruct (String.eqb_spec selectedId (id node)); [contradiction |].
  rewrite Hn, Hs. cbn [negb].
  rewrite push_segments_known; [reflexivity |].
  intros s Hin. apply fold_set_add_In. right. now apply Hknown.
Qed.

Lemma remember_direction_keeps (map : JMap DirectionInfo)
    (k : option string) (info : DirectionInfo) (j : string) :
  map_has map j = true -> map_has (remember_direction map k info) j = true.
Proof.
  intros Hj. unfold remember_direction. destruct k as [k|]; [| exact Hj].
  destruct (map_has map k); [exact Hj |].
  apply map_has_In, map_keys_set_In. left. now apply map_has_In.
Qed.

Lemma remember_direction_has (map : JMap DirectionInfo) (k : string)
    (info : DirectionInfo) :
  map_has (remember_direction map (Some k) info) k = true.
Proof.
  unfold remember_direction. destruct (map_has map k) eqn:E; [exact E |].
  unfold map_has. now rewrite map_get_set_same.
Qed.

Lemma fold_directionInfoMap_keeps (es : list GridEdge) :
  forall map j,
    map_has map j = true ->
    map_has (fold_left directionInfoMap_step es map) j = true.
Proof.
  induction es as [|e es IH]; intros map j Hj; cbn [fold_left]; [exact Hj |].
  apply IH. rewrite directionInfoMap_step_unfold.
  now apply remember_direction_keeps, remember_direction_keeps.
Qed.

(** The direction catalogue knows every edge of the base grid, both
    ways: whenever the direction of an edge, or of its reverse, has a key,
    the catalogue has an entry under that key. *)
Theorem directionInfoMap_has_base_directions (e : GridEdge) :
  In e edges ->
  let dx := (x (to e) - x (from e))%float in
  let dy := (y (to e) - y (from e))%float in
  (forall k, createDirectionKey dx dy = Some k ->
             map_has directionInfoMap k = true)
  /\ (forall k, createDirectionKey (- dx) (- dy) = Some k ->
                map_has directionInfoMap k = true).
Proof.
  intros Hin dx dy. unfold directionInfoMap.
  assert (Hall : forall es map, In e es ->
            (forall k, createDirectionKey dx dy = Some k ->
               map_has (fold_left directionInfoMap_step es map) k = true)
            /\ (forall k, createDirectionKey (- dx) (- dy) = Some k ->
                  map_has (fold_left directionInfoMap_step es map) k = true)).
  { induction es as [|e' es IH]; intros map He; [destruct He |].
    cbn [fold_left]. destruct He as [-> | He]; [| apply IH; exact He].
    rewrite directionInfoMap_step_unfold. fold dx. fold dy.
    split; intros k Hk; apply fold_directionInfoMap_keeps; rewrite Hk.
    - apply remember_direction_keeps, remember_direction_has.
    - apply remember_direction_has. }
  exact (Hall edges [] Hin).
Qed.

End MoreEditProperties.

Lemma directionInfoMap_has_base_directions_witness :
  map_has (directionInfoMap (M := Reference.lib)) "0.5,0.866025" = true.
Proof.
  apply (proj1 (directionInfoMap_has_base_directions (M := Reference.lib)
                  (Reference.unit_edge "r0c0" "r1c1") ltac:(vm_compute; tauto))).
  vm_compute. reflexivity.
Defined.

Lemma handleNodeClick_redraw_witness :
  handleNodeClick (M := Reference.lib) (fst after_two_clicks) (Some "r0c1")
    (Reference.node "r0c3")
  = mkOutcome (Some (fst after_two_clicks)) None.
Proof.
  apply (handleNodeClick_redraw (M := Reference.lib) (fst after_two_clicks)
           "r0c1" (Reference.node "r0c1") (Reference.node "r0c3")
           [Reference.unit_edge "r0c1" "r0c2";
            Reference.unit_edge "r0c2" "r0c3"]).
  - discriminate.
  - vm_compute. reflexivity.
  - vm_compute. reflexivity.
  - intros s Hs. vm_compute in Hs.
    destruct Hs as [<- | [<- | []]]; vm_compute; tauto.
Defined.

